(** * Calibrated attention: scaling functions and attention variants

    A shallow embedding of [attentions.py].

    The Python code is written once against torch tensors whose element
    type is a floating-point dtype.  The embedding follows that shape: every
    source function is translated once, over an abstract scalar type
    ([Scalar]), and is then read at two instances.

    - [Exact.scalar]: elements are real numbers and arithmetic is exact.
      Rounding, overflow, infinities and NaN do not exist here.  The
      exponential is the one of the dtype ([dt_exp]), which for the
      mathematical dtype is [exp] and for a machine dtype may underflow to
      zero.  The logarithm is only meaningful on positive arguments, so
      statements at this instance never rely on position 0 of a
      logarithmic scale.

    - [IEEE.scalar]: elements are finite reals, the two infinities, or NaN,
      with the IEEE-754 rules for the special values (log 0 = -inf,
      0 * inf = NaN, sqrt of a negative = NaN, ...).  Finite results stay
      exact.  This instance is used for everything that happens at
      position 0.

    Tensors are nested lists.  A tensor of shape (b, n, dim) is a list of
    samples, each a list of n rows of length dim; a tensor of shape
    (1, h, n, 1) is a list of h rows of length n.

    Exceptions are values: a function that can raise returns an [option],
    and [None] is the exception.  The only one the module can raise on
    tensors of matching shapes is that of [torch.max] over an axis of
    size 0, in the two variants that write their softmax by hand.

    [scaled_dot_product_attention] is a library call served by one of
    several kernels.  They agree on rows whose unmasked logits are all
    finite, and the embedding computes those rows itself; what a kernel
    returns on any other row is a parameter ([Backend]), so that a
    statement either holds for every kernel or names the one it is
    about. *)

From Stdlib Require Import Reals Lra Lia List Bool Arith.
Import ListNotations.

Set Implicit Arguments.
Open Scope R_scope.

(** ** Scalars *)

(** The operations the source applies to tensor elements. *)
Class Scalar (T : Type) : Type := {
  of_real : R -> T;            (* a Python number entering a tensor *)
  fneg : T -> T;
  fadd : T -> T -> T;
  fsub : T -> T -> T;
  fmul : T -> T -> T;
  fdiv : T -> T -> T;
  fexp : T -> T;               (* torch.exp *)
  flog : T -> T;               (* torch.log *)
  fsqrt : T -> T;              (* tensor ** 0.5, which torch evaluates as sqrt *)
  fmaximum : T -> T -> T;      (* torch.maximum, torch.max *)
  fgtb : T -> T -> bool;       (* tensor > number *)
  finfo_max : T                (* torch.finfo(dtype).max *)
}.

(** What a dtype contributes: its largest finite value and its exponential. *)
Record Dtype : Type := {
  dt_max : R;
  dt_exp : R -> R;
  dt_max_pos : 0 < dt_max;
  dt_exp_0 : dt_exp 0 = 1;
  dt_exp_nonneg : forall t, 0 <= dt_exp t
}.

Definition Rgtb (a b : R) : bool := if Rgt_dec a b then true else false.
Definition Rltb (a b : R) : bool := if Rlt_dec a b then true else false.
Definition Reqb (a b : R) : bool := if Req_dec_T a b then true else false.

Module Exact.

Definition scalar (d : Dtype) : Scalar R := {|
  of_real := fun r => r;
  fneg := Ropp;
  fadd := Rplus;
  fsub := Rminus;
  fmul := Rmult;
  fdiv := Rdiv;
  fexp := dt_exp d;
  flog := ln;
  fsqrt := sqrt;
  fmaximum := Rmax;
  fgtb := Rgtb;
  finfo_max := dt_max d
|}.

End Exact.

Module IEEE.

Inductive xfloat : Type :=
| XNaN
| XInf (negative : bool)
| XFin (r : R).

Definition is_finite (a : xfloat) : Prop :=
  match a with XFin _ => True | _ => False end.

Definition is_nan (a : xfloat) : Prop :=
  match a with XNaN => True | _ => False end.

Definition xneg (a : xfloat) : xfloat :=
  match a with
  | XNaN => XNaN
  | XInf s => XInf (negb s)
  | XFin r => XFin (- r)
  end.

Definition xadd (a b : xfloat) : xfloat :=
  match a, b with
  | XNaN, _ | _, XNaN => XNaN
  | XInf s, XInf s' => if Bool.eqb s s' then XInf s else XNaN
  | XInf s, XFin _ | XFin _, XInf s => XInf s
  | XFin r, XFin r' => XFin (r + r')
  end.

Definition xsub (a b : xfloat) : xfloat := xadd a (xneg b).

Definition xmul (a b : xfloat) : xfloat :=
  match a, b with
  | XNaN, _ | _, XNaN => XNaN
  | XInf s, XInf s' => XInf (xorb s s')
  | XInf s, XFin r | XFin r, XInf s =>
      if Reqb r 0 then XNaN else XInf (xorb s (Rltb r 0))
  | XFin r, XFin r' => XFin (r * r')
  end.

(** Zero is read as +0, the only zero the source produces as a divisor. *)
Definition xdiv (a b : xfloat) : xfloat :=
  match a, b with
  | XNaN, _ | _, XNaN => XNaN
  | XInf _, XInf _ => XNaN
  | XInf s, XFin r => XInf (xorb s (Rltb r 0))
  | XFin _, XInf _ => XFin 0
  | XFin r, XFin r' =>
      if Reqb r' 0
      then (if Reqb r 0 then XNaN else XInf (Rltb r 0))
      else XFin (r / r')
  end.

Definition xexp (d : Dtype) (a : xfloat) : xfloat :=
  match a with
  | XNaN => XNaN
  | XInf false => XInf false
  | XInf true => XFin 0
  | XFin r => XFin (dt_exp d r)
  end.

Definition xlog (a : xfloat) : xfloat :=
  match a with
  | XNaN => XNaN
  | XInf false => XInf false
  | XInf true => XNaN
  | XFin r =>
      if Rltb r 0 then XNaN
      else if Reqb r 0 then XInf true
      else XFin (ln r)
  end.

Definition xsqrt (a : xfloat) : xfloat :=
  match a with
  | XNaN => XNaN
  | XInf false => XInf false
  | XInf true => XNaN
  | XFin r => if Rltb r 0 then XNaN else XFin (sqrt r)
  end.

Definition xmaximum (a b : xfloat) : xfloat :=
  match a, b with
  | XNaN, _ | _, XNaN => XNaN
  | XInf false, _ | _, XInf false => XInf false
  | XInf true, c | c, XInf true => c
  | XFin r, XFin r' => XFin (Rmax r r')
  end.

Definition xgtb (a b : xfloat) : bool :=
  match a, b with
  | XNaN, _ | _, XNaN => false
  | XInf false, XInf false => false
  | XInf false, _ => true
  | _, XInf false => false
  | XInf true, _ => false
  | XFin _, XInf true => true
  | XFin r, XFin r' => Rgtb r r'
  end.

Definition scalar (d : Dtype) : Scalar xfloat := {|
  of_real := XFin;
  fneg := xneg;
  fadd := xadd;
  fsub := xsub;
  fmul := xmul;
  fdiv := xdiv;
  fexp := xexp d;
  flog := xlog;
  fsqrt := xsqrt;
  fmaximum := xmaximum;
  fgtb := xgtb;
  finfo_max := XFin (dt_max d)
|}.

End IEEE.

(** ** Tensor helpers *)

Abbreviation vec T := (list T) (only parsing).
Abbreviation mat T := (list (list T)) (only parsing).

Section Tensors.

Context {T : Type} {ops : Scalar T}.

Definition fzero : T := of_real 0.
Definition fone : T := of_real 1.

Definition map2 {A B C : Type} (f : A -> B -> C) (u : list A) (v : list B) : list C :=
  map (fun p => f (fst p) (snd p)) (combine u v).

(** [imap f l] applies [f] to each element together with its index. *)
Definition imap {A B : Type} (f : nat -> A -> B) (l : list A) : list B :=
  map2 f (seq 0 (length l)) l.

(** torch.sum over the last axis. *)
Definition sum (v : vec T) : T := fold_right fadd fzero v.

Definition dot (u v : vec T) : T := sum (map2 fmul u v).

(** torch.max over the last axis (values only).  On an axis of size 0
    torch raises IndexError: there is no value. *)
Definition row_max (v : vec T) : option T :=
  match v with
  | [] => None
  | x :: xs => Some (fold_right fmaximum x xs)
  end.

(** The results of a list of calls, or the exception if one was raised. *)
Fixpoint collect {A : Type} (l : list (option A)) : option (list A) :=
  match l with
  | [] => Some []
  | None :: _ => None
  | Some a :: rest => option_map (cons a) (collect rest)
  end.

(** torch.isfinite: x - x is exactly 0 for a number and NaN for NaN and
    for the infinities. *)
Definition regular (x : T) : bool := fgtb (fadd (fsub x x) fone) fzero.

(** x.pow(n) for a small literal n. *)
Fixpoint fpow (x : T) (n : nat) : T :=
  match n with
  | O => fone
  | S k => fmul x (fpow x k)
  end.

Definition ncols (t : mat T) : nat := length (nth 0 t []).

Definition column (c : nat) (t : mat T) : vec T := map (fun row => nth c row fzero) t.

(** A row of weights times a matrix: einsum 'j, j d -> d'. *)
Definition row_matmul (w : vec T) (v : mat T) : vec T :=
  map (fun c => dot w (column c v)) (seq 0 (ncols v)).

(** torch.arange(n, dtype=x.dtype) *)
Definition arange (n : nat) : vec T := map (fun i => of_real (INR i)) (seq 0 n).

(** ** softmax and adaptive-temperature softmax *)

(** torch.nn.functional.softmax(row, dim=-1) *)
Definition softmax (row : vec T) : vec T :=
  match row_max row with
  | None => []
  | Some m =>
      let e := map (fun x => fexp (fsub x m)) row in
      let s := sum e in
      map (fun ei => fdiv ei s) e
  end.

Definition poly_fit : list R := [-0.037; 0.481; -2.3; 4.917; -1.791].

Definition poly_coeff (i : nat) : T := of_real (nth i poly_fit 0).

Definition entropy_of (probs : vec T) : T :=
  sum (map (fun p => fmul (fneg p) (flog (fadd p (of_real 1e-9)))) probs).

Definition poly_result (entropy : T) : T :=
  fadd (fadd (fadd (fadd (fmul (poly_coeff 0) (fpow entropy 4))
                         (fmul (poly_coeff 1) (fpow entropy 3)))
                   (fmul (poly_coeff 2) (fpow entropy 2)))
             (fmul (poly_coeff 3) entropy))
       (poly_coeff 4).

(** The inverse temperature chosen for one row of logits. *)
Definition adaptive_beta (row : vec T) : T :=
  let entropy := entropy_of (softmax row) in
  if fgtb entropy (of_real 0.5)
  then fmaximum (poly_result entropy) (of_real 1.0)
  else of_real 1.0.

Definition adaptive_temperature_softmax_row (row : vec T) : vec T :=
  let beta := adaptive_beta row in
  softmax (map (fun x => fmul x beta) row).

(** On a matrix of logits every reduction is along the last axis with
    keepdim, so rows are treated one by one. *)
Definition adaptive_temperature_softmax (logits : mat T) : mat T :=
  map adaptive_temperature_softmax_row logits.

(** ** Scaling functions

    [seq_len] is the 1-D tensor of positions; the result has shape
    (1, h', n, 1) and is kept as h' rows of length n. *)

Definition log_base (x : vec T) (base : R) : vec T :=
  map (fun xi => fdiv (flog xi) (flog (of_real base))) x.

Definition yarn_scaling (seq_len : vec T) (head_dim : R) : mat T :=
  [ map (fun s => fdiv (fpow (fadd (fmul (of_real 0.1) (flog s)) (of_real 1)) 2)
                       (of_real (sqrt head_dim)))
        seq_len ].

Definition relative_scaling (seq_len : vec T) (head_dim : R) (base_seq_len : R) : mat T :=
  [ map (fun lb => fsqrt (fdiv lb (of_real head_dim))) (log_base seq_len base_seq_len) ].

Definition relative_scaling_2 (seq_len : vec T) (head_dim : R) (attn_bias : vec T)
    (base_seq_len : R) : mat T :=
  map (fun bias_h =>
         map (fun lb => fsqrt (fdiv (fmul lb bias_h) (of_real head_dim)))
             (log_base seq_len base_seq_len))
      attn_bias.

End Tensors.

(** ** The backend of scaled_dot_product_attention

    F.scaled_dot_product_attention is served by one of several kernels.
    On a row whose unmasked logits are all numbers they agree: softmax
    over the positions the causal mask keeps, weight exactly zero on the
    others.  On a row with a NaN or an infinity among its unmasked
    logits the result depends on the kernel that serves the call (the
    fused CPU kernel returns a row of zeros where the unfused
    composition returns NaN), so the model takes the weights of such a
    row from the backend: [irregular_row i row] are the weights of row
    [i], whose unmasked logits are the first [i + 1] entries of [row]. *)

Class Backend (T : Type) : Type := {
  irregular_row : nat -> list T -> list T
}.

(** ** Modules *)

Section Modules.

Context {T : Type} {ops : Scalar T} {backend : Backend T}.

(** nn.Linear: [weight] has one row per output feature. *)
Record Linear : Type := {
  weight : mat T;
  bias : option (vec T)
}.

Definition linear (l : Linear) (x : mat T) : mat T :=
  map (fun row =>
         let y := map (fun w => dot row w) (weight l) in
         match bias l with
         | None => y
         | Some b => map2 fadd y b
         end)
      x.

(** register_parameter versus register_buffer. *)
Inductive registered (A : Type) : Type :=
| Trainable (a : A)
| Fixed (a : A).

Definition tensor_of {A : Type} (r : registered A) : A :=
  match r with
  | Trainable a => a
  | Fixed a => a
  end.

Record AttentionBase : Type := {
  heads : nat;
  to_q : Linear;
  to_k : Linear;
  to_v : Linear;
  to_out : Linear
}.

Record AttentionRelativeScaling1 : Type := {
  rs1_base : AttentionBase;
  rs1_base_seq_len : R
}.

Record AttentionRelativeScaling2 : Type := {
  rs2_base : AttentionBase;
  rs2_base_seq_len : R;
  rs2_attn_bias : registered (vec T)
}.

Record AttentionLearnedScaling : Type := {
  ls_base : AttentionBase;
  ls_alphas : vec T;
  ls_betas : vec T;
  ls_head_dim : R;
  ls_base_scale : R
}.

Record AttentionSoftmaxPlusOne : Type := {
  p1_base : AttentionBase;
  p1_denom_bias : vec T
}.

Record AttentionSoftmaxPlusFN : Type := {
  pf_base : AttentionBase;
  pf_alphas : vec T;
  pf_betas : vec T
}.

(** *** Constructors.  [base] is what [super().__init__(dim, heads)]
    builds: the four freshly initialised projections. *)

Definition AttentionRelativeScaling2_init (base : AttentionBase)
    (base_seq_len attn_bias : R) (learned_bias : bool) : AttentionRelativeScaling2 :=
  let attn_bias := repeat (of_real attn_bias) (heads base) in
  {| rs2_base := base;
     rs2_base_seq_len := base_seq_len;
     rs2_attn_bias := if learned_bias then Trainable attn_bias else Fixed attn_bias |}.

Definition AttentionLearnedScaling_init (dim : nat) (base : AttentionBase)
    : AttentionLearnedScaling :=
  let head_dim := INR dim / INR (heads base) in
  {| ls_base := base;
     ls_alphas := repeat fzero (heads base);
     ls_betas := repeat fzero (heads base);
     ls_head_dim := head_dim;
     ls_base_scale := sqrt head_dim |}.

Definition AttentionSoftmaxPlusOne_init (base : AttentionBase) : AttentionSoftmaxPlusOne :=
  {| p1_base := base; p1_denom_bias := repeat fzero (heads base) |}.

Definition AttentionSoftmaxPlusFN_init (base : AttentionBase) : AttentionSoftmaxPlusFN :=
  {| pf_base := base;
     pf_alphas := repeat fzero (heads base);
     pf_betas := repeat fzero (heads base) |}.

(** *** Reshaping *)

(** rearrange(t, 'n (h d) -> h n d', h=h) *)
Definition split_heads (h : nat) (t : mat T) : list (mat T) :=
  let d := (ncols t / h)%nat in
  map (fun hh => map (fun row => firstn d (skipn (hh * d) row)) t) (seq 0 h).

(** rearrange(t, 'h n d -> n (h d)') *)
Definition merge_heads (t : list (mat T)) : mat T :=
  map (fun i => concat (map (fun hm => nth i hm []) t)) (seq 0 (length (nth 0 t []))).

Definition zip3 {A B C D : Type} (f : A -> B -> C -> D)
    (a : list A) (b : list B) (c : list C) : list D :=
  map2 (fun x yz => f x (fst yz) (snd yz)) a (combine b c).

(** The projections of [forward], already split into heads. *)
Definition project_q (m : AttentionBase) (x : mat T) : list (mat T) :=
  split_heads (heads m) (linear (to_q m) x).
Definition project_k (m : AttentionBase) (x : mat T) : list (mat T) :=
  split_heads (heads m) (linear (to_k m) x).
Definition project_v (m : AttentionBase) (x : mat T) : list (mat T) :=
  split_heads (heads m) (linear (to_v m) x).

(** *** scaled_dot_product_attention(q, k, v, is_causal=True, scale=...)

    The library primitive: logits q k^T * scale_factor, a causal bias
    of -inf above the diagonal, softmax, then the weights times v.  A
    logit biased by -inf has weight exactly zero and does not take part
    in the row maximum, so row i is the softmax of its first i + 1
    logits followed by zeros. *)

Definition causal_softmax (i : nat) (row : vec T) : vec T :=
  let kept := firstn (S i) row in
  if forallb regular kept
  then softmax kept ++ repeat fzero (length row - S i)
  else irregular_row i row.

Definition sdpa_weights (scale : option T) (q k : mat T) : mat T :=
  let scale_factor := match scale with
                      | Some s => s
                      | None => of_real (1 / sqrt (INR (ncols q)))
                      end in
  imap (fun i qi =>
          causal_softmax i (map (fun kj => fmul (dot qi kj) scale_factor) k))
       q.

Definition sdpa_head (scale : option T) (q k v : mat T) : mat T :=
  map (fun w => row_matmul w v) (sdpa_weights scale q k).

Definition sdpa (scale : option T) (q k v : list (mat T)) : list (mat T) :=
  zip3 (sdpa_head scale) q k v.

(** q * scales, with scales of shape (1, 1, n, 1) or (1, h, n, 1). *)
Definition scale_queries (q : list (mat T)) (scales : mat T) : list (mat T) :=
  imap (fun hh qh =>
          let srow := nth (if (length scales =? 1)%nat then O else hh) scales [] in
          map2 (fun qrow s => map (fun e => fmul e s) qrow) qh srow)
       q.

(** *** Manual masking *)

(** torch.ones((n, n), dtype=bool).triu(1) *)
Definition causal_mask (n : nat) : list (list bool) :=
  map (fun i => map (fun j => Nat.ltb i j) (seq 0 n)) (seq 0 n).

Definition masked_fill {A : Type} (t : list (list A)) (mask : list (list bool))
    (value : A) : list (list A) :=
  map2 (fun row mrow => map2 (fun x (b : bool) => if b then value else x) row mrow) t mask.

(** einsum('i d, j d -> i j', q, k) *)
Definition similarity (q k : mat T) : mat T :=
  map (fun qi => map (fun kj => dot qi kj) k) q.

(** sim / math.sqrt(q.shape[-1]) *)
Definition scaled_similarity (q k : mat T) : mat T :=
  map (map (fun s => fdiv s (of_real (sqrt (INR (ncols q)))))) (similarity q k).

(** The similarity matrix as it enters the softmax of the three
    manually masked variants. *)
Definition masked_similarity (n : nat) (q k : mat T) : mat T :=
  masked_fill (scaled_similarity q k) (causal_mask n) (fneg finfo_max).

(** einsum('i j, j d -> i d', attn, v) *)
Definition apply_attention (attn v : mat T) : mat T :=
  map (fun w => row_matmul w v) attn.

(** The manual softmax whose denominator receives [extra i] on row i.
    It starts with torch.max, which raises on an axis of size 0. *)
Definition softmax_plus_row (extra : T) (row : vec T) : option (vec T) :=
  match row_max row with
  | None => None
  | Some sim_max =>
      let exp_sim := map (fun s => fexp (fsub s sim_max)) row in
      let denom := sum exp_sim in
      let modified_denom := fadd denom extra in
      Some (map (fun e => fdiv e modified_denom) exp_sim)
  end.

(** The similarity matrix is square: one without rows has a last axis of
    size 0 too, and torch.max raises on it. *)
Definition softmax_plus_one_attn (denom_bias_h : T) (sim : mat T) : option (mat T) :=
  match sim with
  | [] => None
  | _ => collect (map (softmax_plus_row (fexp denom_bias_h)) sim)
  end.

Definition softmax_plus_fn_attn (alpha_h beta_h : T) (seq_lens : vec T) (sim : mat T)
    : option (mat T) :=
  match sim with
  | [] => None
  | _ =>
      collect
        (imap (fun i row =>
                 softmax_plus_row
                   (fexp (fadd (fmul alpha_h (flog (nth i seq_lens fzero))) beta_h)) row)
              sim)
  end.

(** *** forward, on one sample of shape (n, dim) *)

Definition finish (m : AttentionBase) (out : list (mat T)) : mat T :=
  linear (to_out m) (merge_heads out).

Definition AttentionBase_forward1 (m : AttentionBase) (x : mat T) : mat T :=
  let q := project_q m x in
  let k := project_k m x in
  let v := project_v m x in
  finish m (sdpa None q k v).

Definition AttentionRelativeScaling1_forward1 (m : AttentionRelativeScaling1)
    (x : mat T) : mat T :=
  let b := rs1_base m in
  let n := length x in
  let d := ncols x in
  let seq_lens := arange n in
  let scales := relative_scaling seq_lens (INR d / INR (heads b)) (rs1_base_seq_len m) in
  let q := scale_queries (project_q b x) scales in
  finish b (sdpa (Some (of_real 1.0)) q (project_k b x) (project_v b x)).

Definition AttentionRelativeScaling2_forward1 (m : AttentionRelativeScaling2)
    (x : mat T) : mat T :=
  let b := rs2_base m in
  let n := length x in
  let d := ncols x in
  let seq_lens := arange n in
  let scales := relative_scaling_2 seq_lens (INR d / INR (heads b))
                                   (tensor_of (rs2_attn_bias m)) (rs2_base_seq_len m) in
  let q := scale_queries (project_q b x) scales in
  finish b (sdpa (Some (of_real 1.0)) q (project_k b x) (project_v b x)).

Definition AttentionYarnScaling_forward1 (b : AttentionBase) (x : mat T) : mat T :=
  let n := length x in
  let d := ncols x in
  let seq_lens := arange n in
  let scales := yarn_scaling seq_lens (INR d / INR (heads b)) in
  let q := scale_queries (project_q b x) scales in
  finish b (sdpa (Some (of_real 1.0)) q (project_k b x) (project_v b x)).

Definition AttentionPolyFitScaling_forward1 (b : AttentionBase) (x : mat T) : mat T :=
  let n := length x in
  let out := zip3 (fun q k v =>
                     let sim := masked_similarity n q k in
                     let attn := adaptive_temperature_softmax sim in
                     apply_attention attn v)
                  (project_q b x) (project_k b x) (project_v b x) in
  finish b out.

Definition create_scaling (m : AttentionLearnedScaling) (seq_lens : vec T) : mat T :=
  let log_seq_lens := map flog seq_lens in
  map2 (fun alpha beta =>
          map (fun l =>
                 let multiplier := fadd (fadd (of_real 1) (fmul alpha l)) beta in
                 let scales := fmul multiplier (of_real (ls_base_scale m)) in
                 fdiv (of_real 1) scales)
              log_seq_lens)
       (ls_alphas m) (ls_betas m).

Definition AttentionLearnedScaling_forward1 (m : AttentionLearnedScaling)
    (x : mat T) : mat T :=
  let b := ls_base m in
  let n := length x in
  let seq_lens := arange n in
  let scales := create_scaling m seq_lens in
  let q := scale_queries (project_q b x) scales in
  finish b (sdpa (Some (of_real 1.0)) q (project_k b x) (project_v b x)).

Definition AttentionSoftmaxPlusOne_forward1 (m : AttentionSoftmaxPlusOne)
    (x : mat T) : option (mat T) :=
  let b := p1_base m in
  let n := length x in
  let out := zip3 (fun q k hv =>
                     let sim := masked_similarity n q k in
                     let attn := softmax_plus_one_attn (nth (fst hv) (p1_denom_bias m) fzero) sim in
                     option_map (fun attn => apply_attention attn (snd hv)) attn)
                  (project_q b x) (project_k b x)
                  (imap pair (project_v b x)) in
  option_map (finish b) (collect out).

Definition AttentionSoftmaxPlusFN_forward1 (m : AttentionSoftmaxPlusFN)
    (x : mat T) : option (mat T) :=
  let b := pf_base m in
  let n := length x in
  let seq_lens := arange n in
  let out := zip3 (fun q k hv =>
                     let sim := masked_similarity n q k in
                     let attn := softmax_plus_fn_attn
                                   (nth (fst hv) (pf_alphas m) fzero)
                                   (nth (fst hv) (pf_betas m) fzero)
                                   seq_lens sim in
                     option_map (fun attn => apply_attention attn (snd hv)) attn)
                  (project_q b x) (project_k b x)
                  (imap pair (project_v b x)) in
  option_map (finish b) (collect out).

(** *** The class hierarchy: one constructor per subclass of
    AttentionBase, [forward] dispatching on it. *)

Inductive Attention : Type :=
| Base (m : AttentionBase)
| RelativeScaling1 (m : AttentionRelativeScaling1)
| RelativeScaling2 (m : AttentionRelativeScaling2)
| YarnScaling (m : AttentionBase)
| PolyFitScaling (m : AttentionBase)
| LearnedScaling (m : AttentionLearnedScaling)
| SoftmaxPlusOne (m : AttentionSoftmaxPlusOne)
| SoftmaxPlusFN (m : AttentionSoftmaxPlusFN).

(** [Some] is the returned tensor, [None] an exception: only the two
    variants that call torch.max can raise one. *)
Definition forward1 (a : Attention) (x : mat T) : option (mat T) :=
  match a with
  | Base m => Some (AttentionBase_forward1 m x)
  | RelativeScaling1 m => Some (AttentionRelativeScaling1_forward1 m x)
  | RelativeScaling2 m => Some (AttentionRelativeScaling2_forward1 m x)
  | YarnScaling m => Some (AttentionYarnScaling_forward1 m x)
  | PolyFitScaling m => Some (AttentionPolyFitScaling_forward1 m x)
  | LearnedScaling m => Some (AttentionLearnedScaling_forward1 m x)
  | SoftmaxPlusOne m => AttentionSoftmaxPlusOne_forward1 m x
  | SoftmaxPlusFN m => AttentionSoftmaxPlusFN_forward1 m x
  end.

(** forward on a batch of shape (b, n, dim): samples do not interact. *)
Definition forward (a : Attention) (x : list (mat T)) : option (list (mat T)) :=
  collect (map (forward1 a) x).

Definition base_of (a : Attention) : AttentionBase :=
  match a with
  | Base m | YarnScaling m | PolyFitScaling m => m
  | RelativeScaling1 m => rs1_base m
  | RelativeScaling2 m => rs2_base m
  | LearnedScaling m => ls_base m
  | SoftmaxPlusOne m => p1_base m
  | SoftmaxPlusFN m => pf_base m
  end.

End Modules.

Arguments Linear T : clear implicits.
Arguments AttentionBase T : clear implicits.
Arguments AttentionRelativeScaling1 T : clear implicits.
Arguments AttentionRelativeScaling2 T : clear implicits.
Arguments AttentionLearnedScaling T : clear implicits.
Arguments AttentionSoftmaxPlusOne T : clear implicits.
Arguments AttentionSoftmaxPlusFN T : clear implicits.
Arguments Attention T : clear implicits.

(** ** Vocabulary of the statements *)

Definition nonneg (e : R) : Prop := 0 <= e.

(** A backend that applies the formula of the regular rows to every row. *)
Definition same_formula {T : Type} {ops : Scalar T} : Backend T := {|
  irregular_row := fun i row =>
    softmax (firstn (S i) row) ++ repeat fzero (length row - S i)
|}.

(** The fused CPU kernel.  Its running maximum starts at -inf and skips
    NaN; a row in which no unmasked logit exceeds -inf, every one being
    NaN or -inf, is filled with zeros.  Any other row goes through the
    formula. *)
Definition fused_backend (d : Dtype) : Backend IEEE.xfloat := {|
  irregular_row := fun i row =>
    if forallb (fun l => match l with
                         | IEEE.XNaN | IEEE.XInf true => true
                         | _ => false
                         end) (firstn (S i) row)
    then repeat (IEEE.XFin 0) (length row)
    else softmax (ops := IEEE.scalar d) (firstn (S i) row)
         ++ repeat (IEEE.XFin 0) (length row - S i)
|}.

(** The maximum of a row of reals, the spec's rowmax.  The empty row has
    none (there [row_max] is [None]); 0 stands in for it. *)
Definition rowmax (row : list R) : R :=
  match row with
  | [] => 0
  | x :: xs => fold_right Rmax x xs
  end.

(** The exponentials entering a softmax over exact reals: the one at the
    row maximum is 1. *)
Definition shifted_exp (d : Dtype) (row : list R) : list R :=
  map (fun x => dt_exp d (x - rowmax row)) row.

(** The row of weights the spec gives the manual softmax:
    exp(sim - rowmax) / (sum(exp(sim - rowmax)) + extra). *)
Definition plus_row (d : Dtype) (extra : R) (row : list R) : list R :=
  map (fun e => e / (fold_right Rplus 0 (shifted_exp d row) + extra)) (shifted_exp d row).

(** The quartic fit, highest degree first. *)
Definition quartic (H : R) : R :=
  -0.037 * H ^ 4 + 0.481 * H ^ 3 - 2.3 * H ^ 2 + 4.917 * H - 1.791.

(** The Shannon entropy as the specification writes it. *)
Definition shannon_entropy (p : list R) : R :=
  - fold_right Rplus 0 (map (fun pj => pj * ln (pj + 1e-9)) p).

(** Two tensors of the same length that coincide on positions 0..i. *)
Definition agree_upto {X : Type} (i : nat) (a b : list X) : Prop :=
  length a = length b /\ firstn (S i) a = firstn (S i) b.

(** Head [hh] of a projection of [x]: what rearrange('n (h d) -> h n d')
    puts at index [hh]. *)
Definition head_proj {T : Type} {ops : Scalar T} (l : Linear T) (h hh : nat)
    (x : mat T) : mat T :=
  let t := linear l x in
  map (fun row => firstn (ncols t / h) (skipn (hh * (ncols t / h)) row)) t.


(** The two variants whose manual softmax starts with torch.max. *)
Definition calls_torch_max {T : Type} (a : Attention T) : bool :=
  match a with
  | SoftmaxPlusOne _ | SoftmaxPlusFN _ => true
  | _ => false
  end.




(** The scales that the two relative-scaling variants multiply into the
    queries of a sample [x]. *)
Definition rs1_scales {T : Type} {ops : Scalar T} (m : AttentionRelativeScaling1 T)
    (x : mat T) : mat T :=
  relative_scaling (arange (length x))
                   (INR (ncols x) / INR (heads (rs1_base m))) (rs1_base_seq_len m).

Definition rs2_scales {T : Type} {ops : Scalar T} (m : AttentionRelativeScaling2 T)
    (x : mat T) : mat T :=
  relative_scaling_2 (arange (length x))
                     (INR (ncols x) / INR (heads (rs2_base m)))
                     (tensor_of (rs2_attn_bias m)) (rs2_base_seq_len m).

(** A scaled variant on an input whose scale is not a number at position
    0: forward makes no check and returns what sdpa computes from
    queries whose row 0 is, in every head, non-finite in every
    component. *)
Definition unguarded_at_0 {backend : Backend IEEE.xfloat} (d : Dtype)
    (a : Attention IEEE.xfloat) (b : AttentionBase IEEE.xfloat)
    (scales : mat IEEE.xfloat) (x : mat IEEE.xfloat) : Prop :=
  let q := scale_queries (ops := IEEE.scalar d) (project_q (ops := IEEE.scalar d) b x)
                         scales in
  forward1 (ops := IEEE.scalar d) a x
  = Some (finish (ops := IEEE.scalar d) b
            (sdpa (ops := IEEE.scalar d) (Some (IEEE.XFin 1.0)) q
                  (project_k (ops := IEEE.scalar d) b x)
                  (project_v (ops := IEEE.scalar d) b x)))
  /\ forall hh, (hh < heads b)%nat ->
       nth 0 (nth hh q []) [] <> []
       /\ Forall (fun e => ~ IEEE.is_finite e) (nth 0 (nth hh q []) []).

(** What position 1 looks like in one head when its query has been
    multiplied by a zero scale: the query row is zero, the logits against
    every key are zero, and the attention weights are 1/2 on positions 0
    and 1 and 0 elsewhere. *)
Definition position_1_uniform {T : Type} {ops : Scalar T} {backend : Backend T}
    (n : nat) (q k : mat T) : Prop :=
  Forall (fun e => e = fzero) (nth 1 q []) /\
  Forall (fun kj => fmul (dot (nth 1 q []) kj) (of_real 1.0) = fzero) k /\
  nth 1 (sdpa_weights (Some (of_real 1.0)) q k) []
  = [of_real (1 / 2); of_real (1 / 2)] ++ repeat fzero (n - 2).

(** The shapes the constructors produce: nn.Linear(dim, dim) four times,
    with a bias on the output projection only, dim a positive multiple of
    heads, and an input of width dim. *)
Definition linear_shape {T : Type} (dim : nat) (l : Linear T) : Prop :=
  length (weight l) = dim /\ Forall (fun w => length w = dim) (weight l).

Definition well_shaped {T : Type} (dim : nat) (b : AttentionBase T) (x : mat T) : Prop :=
  (1 <= heads b)%nat /\
  (exists dh, (1 <= dh)%nat /\ dim = (heads b * dh)%nat) /\
  (linear_shape dim (to_q b) /\ bias (to_q b) = None) /\
  (linear_shape dim (to_k b) /\ bias (to_k b) = None) /\
  (linear_shape dim (to_v b) /\ bias (to_v b) = None) /\
  (linear_shape dim (to_out b) /\
   exists bo, bias (to_out b) = Some bo /\ length bo = dim) /\
  Forall (fun row => length row = dim) x.

(** The per-head parameters have one entry per head. *)
Definition params_shaped {T : Type} (a : Attention T) : Prop :=
  match a with
  | RelativeScaling2 m => length (tensor_of (rs2_attn_bias m)) = heads (rs2_base m)
  | LearnedScaling m =>
      length (ls_alphas m) = heads (ls_base m) /\ length (ls_betas m) = heads (ls_base m)
  | _ => True
  end.

(** The exponential of the dtype does not decrease. *)
Definition monotone_exp (d : Dtype) : Prop :=
  forall s t, s <= t -> dt_exp d s <= dt_exp d t.

(** Two dtypes.  [real_dtype] computes the exponential exactly.
    [float32_dtype] has the exponential of single precision in the one
    respect that matters to masking: it returns exactly zero on arguments
    at or below -104.  Both have the largest finite value of float32. *)

Definition float32_max : R := 340282346638528859811704183484516925440.

Definition real_dtype : Dtype := {|
  dt_max := float32_max;
  dt_exp := exp;
  dt_max_pos := IZR_lt 0 340282346638528859811704183484516925440 eq_refl;
  dt_exp_0 := exp_0;
  dt_exp_nonneg := fun t => Rlt_le 0 (exp t) (exp_pos t)
|}.

(** Over the reals every logit is a number and no row is irregular. *)
#[global] Instance real_backend : Backend R | 100 :=
  same_formula (ops := Exact.scalar real_dtype).

Definition underflow_exp (t : R) : R :=
  if Rle_dec t (-104) then 0 else exp t.

Definition float32_dtype : Dtype.
Proof.
  refine {| dt_max := float32_max; dt_exp := underflow_exp |}.
  - exact (IZR_lt 0 340282346638528859811704183484516925440 eq_refl).
  - unfold underflow_exp. destruct (Rle_dec 0 (-104)) as [H|_]; [lra | apply exp_0].
  - intro t. unfold underflow_exp. destruct (Rle_dec t (-104)) as [_|_];
      [lra | left; apply exp_pos].
Defined.

(** The smallest instances: dim = heads = 1 and one weight per projection. *)
Definition linear_1 {T : Type} (w : T) (b : option (vec T)) : Linear T :=
  {| weight := [[w]]; bias := b |}.

Definition base_1 {T : Type} {ops : Scalar T} (wq wk wv wo : R) : AttentionBase T :=
  {| heads := 1;
     to_q := linear_1 (of_real wq) None;
     to_k := linear_1 (of_real wk) None;
     to_v := linear_1 (of_real wv) None;
     to_out := linear_1 (of_real wo) (Some [fzero]) |}.





(** ** Lists *)

Section ListFacts.

Local Open Scope nat_scope.

Lemma map2_length {A B C : Type} (f : A -> B -> C) (u : list A) (v : list B) :
  length (map2 f u v) = Nat.min (length u) (length v).
Proof. unfold map2. now rewrite length_map, length_combine. Qed.

Lemma map2_map_same {A B C : Type} {S : Type} (f : S -> A) (g : S -> B) (h : A -> B -> C) (s : list S) :
  map2 h (map f s) (map g s) = map (fun t => h (f t) (g t)) s.
Proof.
  unfold map2. induction s as [|t s IH]; simpl; [reflexivity|]. now rewrite IH.
Qed.

Lemma combine_map_same {A B : Type} {S : Type} (f : S -> A) (g : S -> B) (s : list S) :
  combine (map f s) (map g s) = map (fun t => (f t, g t)) s.
Proof. induction s as [|t s IH]; simpl; [reflexivity|]. now rewrite IH. Qed.

Lemma imap_map_seq {A B : Type} (f : nat -> A -> B) (a : nat -> A) (h : nat) :
  imap f (map a (seq 0 h)) = map (fun hh => f hh (a hh)) (seq 0 h).
Proof.
  unfold imap. rewrite length_map, length_seq.
  rewrite <- (map_id (seq 0 h)) at 1. apply map2_map_same.
Qed.


Lemma nth_map_lt {A B : Type} (f : A -> B) (l : list A) (i : nat) (d : A) (e : B) :
  i < length l -> nth i (map f l) e = f (nth i l d).
Proof.
  intros Hi. rewrite (nth_indep _ e (f d)) by (now rewrite length_map).
  apply map_nth.
Qed.

Lemma nth_map2_lt {A B C : Type} (f : A -> B -> C) (u : list A) (v : list B) (i : nat) (a : A) (b : B) (c : C) :
  i < length u -> i < length v -> nth i (map2 f u v) c = f (nth i u a) (nth i v b).
Proof.
  revert v i. induction u as [|x u IH]; intros [|y v] [|i] Hu Hv; simpl in *; try lia.
  - reflexivity.
  - apply IH; lia.
Qed.

Lemma nth_imap {A B : Type} (f : nat -> A -> B) (l : list A) (i : nat) (d : A) (e : B) :
  i < length l -> nth i (imap f l) e = f i (nth i l d).
Proof.
  intros Hi. unfold imap.
  rewrite (nth_map2_lt f (seq 0 (length l)) l O d e) by (rewrite ?length_seq; exact Hi).
  now rewrite seq_nth.
Qed.

Lemma imap_length {A B : Type} (f : nat -> A -> B) (l : list A) : length (imap f l) = length l.
Proof. unfold imap. rewrite map2_length, length_seq. lia. Qed.

Lemma combine_app_l {A B : Type} (l1 l2 : list A) (l : list B) :
  combine (l1 ++ l2) l = combine l1 l ++ combine l2 (skipn (length l1) l).
Proof.
  revert l. induction l1 as [|x l1 IH]; intros l; simpl.
  - reflexivity.
  - destruct l as [|y l]; simpl.
    + now destruct l2.
    + now rewrite IH.
Qed.


Lemma map_const_repeat {A B : Type} (f : A -> B) (c : B) (l : list A) :
  (forall a, In a l -> f a = c) -> map f l = repeat c (length l).
Proof.
  induction l as [|x l IH]; intros Hf; simpl; [reflexivity|].
  rewrite Hf by (now left). rewrite IH; [reflexivity|]. intros a Ha. apply Hf. now right.
Qed.


Lemma agree_refl {X : Type} (i : nat) (a : list X) : agree_upto i a a.
Proof. split; reflexivity. Qed.




Lemma zip3_map_same {S A B C D : Type} (f : A -> B -> C -> D)
    (a : S -> A) (b : S -> B) (c : S -> C) (s : list S) :
  zip3 f (map a s) (map b s) (map c s) = map (fun t => f (a t) (b t) (c t)) s.
Proof.
  unfold zip3. rewrite combine_map_same.
  rewrite (map2_map_same a (fun t => (b t, c t))). reflexivity.
Qed.

Lemma nth_map_agree {A B : Type} (g : A -> B) (m m' : list A) (i : nat) (d : A) (e : B) :
  length m = length m' -> nth i m d = nth i m' d ->
  nth i (map g m) e = nth i (map g m') e.
Proof.
  intros Hl Hn. destruct (Nat.lt_ge_cases i (length m)) as [Hi|Hi].
  - rewrite (nth_map_lt g m d e Hi).
    rewrite (nth_map_lt g m' d e) by (rewrite <- Hl; exact Hi).
    now rewrite Hn.
  - rewrite !nth_overflow; rewrite ?length_map; try reflexivity; lia.
Qed.


Lemma kept_true_false {A : Type} (r1 r2 : list A) :
  map snd (filter fst (combine (repeat true (length r1) ++ repeat false (length r2))
                               (r1 ++ r2))) = r1.
Proof.
  induction r1 as [|a r1 IH].
  - simpl. induction r2 as [|b r2 IH2]; [reflexivity | exact IH2].
  - simpl. now rewrite IH.
Qed.

Lemma map2_true_false {A B : Type} (g : A -> B) (z : B) (r1 r2 : list A) :
  map2 (fun (b : bool) x => if b then g x else z)
       (repeat true (length r1) ++ repeat false (length r2)) (r1 ++ r2)
  = map g r1 ++ repeat z (length r2).
Proof.
  unfold map2. induction r1 as [|a r1 IH].
  - simpl. induction r2 as [|b r2 IH2]; [reflexivity|]. simpl. now rewrite IH2.
  - simpl. now rewrite IH.
Qed.

Lemma concat_repeat {A : Type} (c : A) (k : nat) (s : list nat) :
  concat (map (fun _ => repeat c k) s) = repeat c (length s * k).
Proof.
  induction s as [|t s IH]; [reflexivity|].
  simpl. now rewrite IH, repeat_app.
Qed.

Lemma masked_fill_Forall {A : Type} (P : A -> Prop) (t : list (list A))
    (mask : list (list bool)) (value : A) :
  P value -> Forall (Forall P) t -> Forall (Forall P) (masked_fill t mask value).
Proof.
  intros Hv Ht. unfold masked_fill, map2.
  apply Forall_forall. intros row Hrow. apply in_map_iff in Hrow.
  destruct Hrow as [[r mr] [<- Hin]]. simpl.
  apply Forall_forall. intros e He. apply in_map_iff in He.
  destruct He as [[a bb] [<- Hin']]. simpl.
  destruct bb; [exact Hv|].
  rewrite Forall_forall in Ht. apply in_combine_l in Hin. specialize (Ht r Hin).
  rewrite Forall_forall in Ht. apply Ht. now apply in_combine_l in Hin'.
Qed.

Lemma map_as_imap {A B : Type} (f : A -> B) (l : list A) :
  map f l = imap (fun _ => f) l.
Proof.
  unfold imap, map2. generalize 0. induction l as [|a l IH]; intros s.
  - reflexivity.
  - simpl. now rewrite <- IH.
Qed.

Lemma collect_map_some {A B : Type} (f : A -> option B) (g : A -> B) (l : list A) :
  (forall a, In a l -> f a = Some (g a)) -> collect (map f l) = Some (map g l).
Proof.
  induction l as [|a l IH]; intros Hf; [reflexivity|].
  simpl. rewrite (Hf a) by (now left). rewrite IH; [reflexivity|].
  intros a' Ha'. apply Hf. now right.
Qed.

Lemma collect_none {A : Type} (l : list (option A)) : In None l -> collect l = None.
Proof.
  induction l as [|o l IH]; intros Hin; [contradiction|].
  destruct o as [a|]; [|reflexivity].
  destruct Hin as [E | Hin]; [discriminate|]. simpl. now rewrite IH.
Qed.

Lemma collect_singleton {A : Type} (o : option A) : collect [o] = option_map (fun a => [a]) o.
Proof. destruct o; reflexivity. Qed.

Lemma collect_length {A : Type} (l : list (option A)) (r : list A) :
  collect l = Some r -> length r = length l.
Proof.
  revert r. induction l as [|o l IH]; intros r E.
  - injection E as <-. reflexivity.
  - destruct o as [a|]; [|discriminate]. simpl in E.
    destruct (collect l) as [r'|]; [|discriminate].
    injection E as <-. simpl. now rewrite (IH r' eq_refl).
Qed.

Lemma collect_nth {A : Type} (l : list (option A)) (r : list A) (i : nat) (dflt : A) :
  collect l = Some r -> i < length l -> nth i l None = Some (nth i r dflt).
Proof.
  revert r i. induction l as [|o l IH]; intros r i E Hi; [simpl in Hi; lia|].
  destruct o as [a|]; [|discriminate]. simpl in E.
  destruct (collect l) as [r'|]; [|discriminate].
  injection E as <-. destruct i as [|i]; [reflexivity|].
  simpl. apply IH; [reflexivity | simpl in Hi; lia].
Qed.

End ListFacts.

(** ** The head-by-head view of forward *)

Section HeadView.

Context {T : Type} {ops : Scalar T} {backend : Backend T}.

Local Open Scope nat_scope.

Lemma split_heads_linear (l : Linear T) (h : nat) (x : mat T) :
  split_heads h (linear l x) = map (fun hh => head_proj l h hh x) (seq 0 h).
Proof. reflexivity. Qed.

Lemma linear_length (l : Linear T) (x : mat T) : length (linear l x) = length x.
Proof. unfold linear. apply length_map. Qed.

Lemma head_proj_length (l : Linear T) (h hh : nat) (x : mat T) :
  length (head_proj l h hh x) = length x.
Proof. unfold head_proj. rewrite length_map. apply linear_length. Qed.




(** Row i of the merged and projected output is determined by row i of
    every head. *)
Lemma finish_row_ext (b : AttentionBase T) (h i : nat) (P P' : nat -> mat T) :
  (forall hh, hh < h ->
     length (P hh) = length (P' hh) /\ nth i (P hh) [] = nth i (P' hh) []) ->
  nth i (finish b (map P (seq 0 h))) [] = nth i (finish b (map P' (seq 0 h))) [].
Proof.
  intros HP. unfold finish, linear.
  assert (Hlen : length (nth 0 (map P (seq 0 h)) [])
                 = length (nth 0 (map P' (seq 0 h)) [])).
  { destruct h as [|h']; [reflexivity|].
    rewrite !(nth_map_lt _ (seq 0 (S h')) 0 []) by (rewrite length_seq; lia).
    rewrite seq_nth by lia. apply HP. lia. }
  unfold merge_heads. rewrite <- Hlen.
  set (n := length (nth 0 (map P (seq 0 h)) [])).
  apply nth_map_agree with (d := []).
  - now rewrite !length_map.
  - destruct (Nat.lt_ge_cases i (length (seq 0 n))) as [Hi|Hi].
    + rewrite length_seq in Hi.
      rewrite !(nth_map_lt _ (seq 0 n) 0 []) by (rewrite length_seq; exact Hi).
      rewrite seq_nth by exact Hi. simpl Nat.add.
      rewrite !map_map. f_equal. apply map_ext_in. intros hh Hin.
      apply in_seq in Hin. apply (HP hh). lia.
    + rewrite !nth_overflow; rewrite ?length_map; try reflexivity; exact Hi.
Qed.

Lemma sdpa_head_length_gen (sc : option T) (q k v : mat T) :
  length (sdpa_head sc q k v) = length q.
Proof. unfold sdpa_head, sdpa_weights. now rewrite length_map, imap_length. Qed.

(** *** Shapes *)

Lemma linear_row_length (dim : nat) (l : Linear T) (x : mat T) (i : nat) :
  linear_shape dim l -> bias l = None -> i < length x ->
  length (nth i (linear l x) []) = dim.
Proof.
  intros [Hw _] Hb Hi. unfold linear.
  rewrite (nth_map_lt _ x [] [] Hi). rewrite Hb. now rewrite length_map.
Qed.

Lemma head_width (h dh : nat) : 1 <= h -> (h * dh) / h = dh.
Proof. intros Hh. rewrite Nat.mul_comm. apply Nat.div_mul. lia. Qed.

Lemma head_proj_row_length (dim dh : nat) (l : Linear T) (h hh : nat) (x : mat T) (i : nat) :
  linear_shape dim l -> bias l = None -> 1 <= h -> dim = h * dh -> hh < h ->
  1 <= length x -> i < length x ->
  length (nth i (head_proj l h hh x) []) = dh.
Proof.
  intros Hl Hb Hh Hd Hhh Hx Hi. unfold head_proj.
  rewrite (nth_map_lt _ (linear l x) [] []) by (rewrite linear_length; exact Hi).
  unfold ncols. rewrite (@linear_row_length dim l x 0 Hl Hb) by lia.
  rewrite length_firstn, length_skipn.
  rewrite (@linear_row_length dim l x i Hl Hb) by lia.
  rewrite Hd, head_width by exact Hh. nia.
Qed.

(** *** The manual causal mask *)

Lemma causal_mask_row (i n : nat) :
  i < n -> nth i (causal_mask n) [] = repeat false (S i) ++ repeat true (n - S i).
Proof.
  intros Hi. unfold causal_mask.
  rewrite (nth_map_lt _ (seq 0 n) 0 []) by (rewrite length_seq; exact Hi).
  rewrite seq_nth by exact Hi. simpl Nat.add.
  replace n with (S i + (n - S i)) at 1 by lia.
  rewrite seq_app, map_app. f_equal.
  - rewrite map_const_repeat with (c := false).
    + now rewrite length_seq.
    + intros j Hj. apply in_seq in Hj. apply Nat.ltb_ge. lia.
  - rewrite map_const_repeat with (c := true).
    + now rewrite length_seq.
    + intros j Hj. apply in_seq in Hj. apply Nat.ltb_lt. lia.
Qed.

Lemma fill_split {A : Type} (value : A) (r1 r2 : list A) :
  map2 (fun x (b : bool) => if b then value else x) (r1 ++ r2)
       (repeat false (length r1) ++ repeat true (length r2))
  = r1 ++ repeat value (length r2).
Proof.
  unfold map2. induction r1 as [|a r1 IH].
  - simpl. induction r2 as [|b r2 IH2]; [reflexivity|]. simpl. now rewrite IH2.
  - simpl. now rewrite IH.
Qed.

Lemma fill_row {A : Type} (value : A) (row : list A) (i : nat) :
  i < length row ->
  map2 (fun x (b : bool) => if b then value else x) row
       (repeat false (S i) ++ repeat true (length row - S i))
  = firstn (S i) row ++ repeat value (length row - S i).
Proof.
  intros Hi.
  remember (firstn (S i) row) as r1 eqn:E1.
  remember (skipn (S i) row) as r2 eqn:E2.
  assert (E : row = r1 ++ r2) by (subst r1 r2; symmetry; apply firstn_skipn).
  assert (L1 : S i = length r1) by (subst r1; rewrite length_firstn; lia).
  assert (L2 : length row - S i = length r2) by (subst r2; rewrite length_skipn; lia).
  rewrite L2, L1. clear E1 E2 L1 L2 Hi. subst row.
  apply fill_split.
Qed.

(** Row i of the masked similarity: the scaled logits against keys 0..i,
    then the fill value. *)
Lemma masked_similarity_row (q k : mat T) (i : nat) :
  i < length q -> i < length k ->
  nth i (masked_similarity (length k) q k) []
  = map (fun kj => fdiv (dot (nth i q []) kj) (of_real (sqrt (INR (ncols q)))))
        (firstn (S i) k)
    ++ repeat (fneg finfo_max) (length k - S i).
Proof.
  intros Hq Hk. unfold masked_similarity, masked_fill.
  assert (Hs : length (scaled_similarity q k) = length q).
  { unfold scaled_similarity, similarity. now rewrite !length_map. }
  rewrite (nth_map2_lt _ (scaled_similarity q k) (causal_mask (length k)) [] [] [])
    by (rewrite ?Hs; unfold causal_mask; rewrite ?length_map, ?length_seq; assumption).
  rewrite causal_mask_row by exact Hk.
  unfold scaled_similarity, similarity. rewrite map_map.
  rewrite (nth_map_lt _ q [] [] Hq). rewrite map_map.
  set (row := map (fun kj => fdiv (dot (nth i q []) kj) (of_real (sqrt (INR (ncols q))))) k).
  assert (Hr : length row = length k) by (unfold row; apply length_map).
  rewrite <- Hr. rewrite fill_row by (rewrite Hr; exact Hk).
  unfold row. now rewrite firstn_map.
Qed.

Lemma scaled_similarity_row (q k : mat T) (i : nat) :
  i < length q ->
  nth i (scaled_similarity q k) []
  = map (fun kj => fdiv (dot (nth i q []) kj) (of_real (sqrt (INR (ncols q))))) k.
Proof.
  intros Hq. unfold scaled_similarity, similarity. rewrite map_map.
  rewrite (nth_map_lt _ q [] [] Hq). now rewrite map_map.
Qed.

Lemma masked_similarity_length (n : nat) (q k : mat T) :
  length q = n -> length (masked_similarity n q k) = n.
Proof.
  intros Hq. unfold masked_similarity, masked_fill, scaled_similarity, similarity, causal_mask.
  rewrite map2_length, !length_map, length_seq. lia.
Qed.


(** *** Splitting into heads and merging back *)

Lemma concat_slices {A : Type} (h dh : nat) (row : list A) :
  length row = h * dh ->
  concat (map (fun hh => firstn dh (skipn (hh * dh) row)) (seq 0 h)) = row.
Proof.
  revert row. induction h as [|h IH]; intros row Hlen.
  - simpl in *. destruct row; [reflexivity | discriminate].
  - rewrite <- cons_seq, <- seq_shift. simpl map. rewrite map_map. simpl concat.
    rewrite (map_ext (fun hh => firstn dh (skipn (S hh * dh) row))
                     (fun hh => firstn dh (skipn (hh * dh) (skipn dh row)))).
    + rewrite IH by (rewrite length_skipn; lia). apply firstn_skipn.
    + intros hh. rewrite skipn_skipn. f_equal. f_equal. lia.
Qed.

Lemma map_nth_seq {A : Type} (l : list A) (d0 : A) :
  map (fun i => nth i l d0) (seq 0 (length l)) = l.
Proof.
  induction l as [|a l IH]; [reflexivity|].
  simpl length. rewrite <- cons_seq, <- seq_shift. simpl map. rewrite map_map.
  simpl. now rewrite IH.
Qed.

(** X1.  rearrange('n (h d) -> h n d') followed by rearrange('h n d -> n (h d)')
    gives the tensor back. *)
Theorem merge_split_heads (h dh : nat) (t : mat T) :
  1 <= h -> Forall (fun row => length row = h * dh) t ->
  merge_heads (split_heads h t) = t.
Proof.
  intros Hh Hrows. unfold merge_heads, split_heads.
  rewrite (nth_map_lt _ (seq 0 h) 0 []) by (rewrite length_seq; lia).
  rewrite seq_nth by lia. simpl Nat.add. rewrite length_map.
  transitivity (map (fun i => nth i t []) (seq 0 (length t))); [|apply map_nth_seq].
  apply map_ext_in. intros i Hi. apply in_seq in Hi. rewrite map_map.
  assert (Hrow : length (nth i t []) = h * dh).
  { rewrite Forall_forall in Hrows. apply Hrows. apply nth_In. lia. }
  assert (Hd : ncols t / h = dh).
  { unfold ncols. rewrite Forall_forall in Hrows.
    rewrite (Hrows (nth 0 t [])) by (apply nth_In; lia). now apply head_width. }
  rewrite Hd.
  rewrite (map_ext_in _ (fun hh => firstn dh (skipn (hh * dh) (nth i t [])))).
  - now apply concat_slices.
  - intros hh _. now rewrite (nth_map_lt _ t [] []) by lia.
Qed.

(** The three manually masked variants, head by head: each feeds
    [masked_similarity] to its normalisation. *)
Lemma manual_forward_heads (b : AttentionBase T) (x : mat T) :
  let q hh := head_proj (to_q b) (heads b) hh x in
  let k hh := head_proj (to_k b) (heads b) hh x in
  let v hh := head_proj (to_v b) (heads b) hh x in
  let sim hh := masked_similarity (length x) (q hh) (k hh) in
  AttentionPolyFitScaling_forward1 b x
  = finish b (map (fun hh => apply_attention (adaptive_temperature_softmax (sim hh)) (v hh))
                  (seq 0 (heads b))) /\
  (forall m, p1_base m = b ->
     AttentionSoftmaxPlusOne_forward1 m x
     = option_map (finish b)
         (collect (map (fun hh =>
                          option_map (fun attn => apply_attention attn (v hh))
                            (softmax_plus_one_attn (nth hh (p1_denom_bias m) fzero)
                                                   (sim hh)))
                       (seq 0 (heads b))))) /\
  (forall m, pf_base m = b ->
     AttentionSoftmaxPlusFN_forward1 m x
     = option_map (finish b)
         (collect (map (fun hh =>
                          option_map (fun attn => apply_attention attn (v hh))
                            (softmax_plus_fn_attn (nth hh (pf_alphas m) fzero)
                                                  (nth hh (pf_betas m) fzero)
                                                  (arange (length x)) (sim hh)))
                       (seq 0 (heads b))))).
Proof.
  intros q k v sim. repeat split.
  - unfold AttentionPolyFitScaling_forward1, project_q, project_k, project_v.
    now rewrite !split_heads_linear, !zip3_map_same.
  - intros m <-. unfold AttentionSoftmaxPlusOne_forward1, project_q, project_k, project_v.
    now rewrite !split_heads_linear, !imap_map_seq, !zip3_map_same.
  - intros m <-. unfold AttentionSoftmaxPlusFN_forward1, project_q, project_k, project_v.
    now rewrite !split_heads_linear, !imap_map_seq, !zip3_map_same.
Qed.

(** *** The shape of the output *)

Lemma finish_shape (dim n : nat) (b : AttentionBase T) (outs : list (mat T)) :
  linear_shape dim (to_out b) ->
  (exists bo, bias (to_out b) = Some bo /\ length bo = dim) ->
  length (nth 0 outs []) = n ->
  length (finish b outs) = n /\ Forall (fun row => length row = dim) (finish b outs).
Proof.
  intros [Hw _] [bo [Hb Hbo]] Hn. unfold finish, linear. split.
  - unfold merge_heads. now rewrite !length_map, length_seq.
  - apply Forall_forall. intros row Hin. apply in_map_iff in Hin.
    destruct Hin as [r [<- _]]. rewrite Hb, map2_length, length_map. lia.
Qed.

Lemma prescaled_heads (b : AttentionBase T) (sc : option T) (scales : mat T) (x : mat T) :
  sdpa sc (scale_queries (project_q b x) scales) (project_k b x) (project_v b x)
  = map (fun hh =>
           sdpa_head sc
             (map2 (fun qrow s => map (fun e => fmul e s) qrow)
                   (head_proj (to_q b) (heads b) hh x)
                   (nth (if length scales =? 1 then 0 else hh) scales []))
             (head_proj (to_k b) (heads b) hh x)
             (head_proj (to_v b) (heads b) hh x))
        (seq 0 (heads b)).
Proof.
  unfold project_q, project_k, project_v, sdpa, scale_queries.
  now rewrite !split_heads_linear, !imap_map_seq, !zip3_map_same.
Qed.

Lemma scaled_queries_head (b : AttentionBase T) (scales : mat T) (x : mat T) (hh : nat) :
  hh < heads b ->
  nth hh (scale_queries (project_q b x) scales) []
  = map2 (fun qrow s => map (fun e => fmul e s) qrow)
         (head_proj (to_q b) (heads b) hh x)
         (nth (if length scales =? 1 then 0 else hh) scales []).
Proof.
  intros Hh. unfold scale_queries, project_q.
  rewrite split_heads_linear, imap_map_seq.
  rewrite (nth_map_lt _ (seq 0 (heads b)) 0 []) by (rewrite length_seq; exact Hh).
  now rewrite seq_nth by exact Hh.
Qed.

Lemma base_heads (b : AttentionBase T) (x : mat T) :
  sdpa None (project_q b x) (project_k b x) (project_v b x)
  = map (fun hh => sdpa_head None (head_proj (to_q b) (heads b) hh x)
                             (head_proj (to_k b) (heads b) hh x)
                             (head_proj (to_v b) (heads b) hh x))
        (seq 0 (heads b)).
Proof.
  unfold project_q, project_k, project_v, sdpa.
  now rewrite !split_heads_linear, !zip3_map_same.
Qed.

Lemma first_head (h : nat) (P : nat -> mat T) :
  1 <= h -> nth 0 (map P (seq 0 h)) [] = P 0.
Proof.
  intros Hh. rewrite (nth_map_lt _ (seq 0 h) 0 []) by (rewrite length_seq; lia).
  now rewrite seq_nth by lia.
Qed.

Lemma prescaled_shape (dim : nat) (b : AttentionBase T) (sc : option T) (scales : mat T)
    (x : mat T) :
  well_shaped dim b x -> length (nth 0 scales []) = length x ->
  length (finish b (sdpa sc (scale_queries (project_q b x) scales)
                         (project_k b x) (project_v b x))) = length x
  /\ Forall (fun row => length row = dim)
            (finish b (sdpa sc (scale_queries (project_q b x) scales)
                            (project_k b x) (project_v b x))).
Proof.
  intros (Hh & _ & _ & _ & _ & (Ho & Hob) & _) Hs.
  apply finish_shape; try assumption.
  rewrite prescaled_heads, first_head by exact Hh.
  rewrite sdpa_head_length_gen, map2_length, head_proj_length.
  destruct (length scales =? 1); rewrite Hs; lia.
Qed.

(** On a sequence with at least one position torch.max finds a value in
    every row of the masked similarity. *)
Lemma masked_similarity_rows (n : nat) (q k : mat T) :
  length q = n -> length k = n -> 1 <= n ->
  masked_similarity n q k <> []
  /\ Forall (fun r => r <> []) (masked_similarity n q k).
Proof.
  intros Hq Hk Hn.
  pose proof (@masked_similarity_length n q k Hq) as Hl. split.
  - intros E. rewrite E in Hl. simpl in Hl. lia.
  - apply Forall_forall. intros r Hin.
    destruct (In_nth _ _ [] Hin) as [i [Hi <-]]. rewrite Hl in Hi.
    rewrite <- Hk. rewrite masked_similarity_row by lia.
    destruct k as [|k0 k']; [simpl in Hk; lia | discriminate].
Qed.

Lemma softmax_plus_row_some (extra : T) (row : vec T) :
  row <> [] ->
  exists w, softmax_plus_row extra row = Some w /\ length w = length row.
Proof.
  intros Hne. destruct row as [|r0 row]; [congruence|].
  unfold softmax_plus_row. simpl row_max. cbv zeta. eexists. split; [reflexivity|].
  now rewrite !length_map.
Qed.

Lemma plus_one_attn_some (c : T) (sim : mat T) :
  sim <> [] -> Forall (fun r => r <> []) sim ->
  exists attn, softmax_plus_one_attn c sim = Some attn /\ length attn = length sim.
Proof.
  intros Hne Hrows. unfold softmax_plus_one_attn.
  destruct sim as [|s0 sim]; [congruence|].
  set (g := fun row => match softmax_plus_row (fexp c) row with
                       | Some w => w
                       | None => []
                       end).
  exists (map g (s0 :: sim)). split; [|apply length_map].
  apply collect_map_some. intros row Hin. rewrite Forall_forall in Hrows.
  destruct (softmax_plus_row_some (fexp c) (Hrows row Hin)) as [w [E _]].
  unfold g. now rewrite E.
Qed.

Lemma plus_fn_attn_some (alpha beta : T) (seq_lens : vec T) (sim : mat T) :
  sim <> [] -> Forall (fun r => r <> []) sim ->
  exists attn, softmax_plus_fn_attn alpha beta seq_lens sim = Some attn
               /\ length attn = length sim.
Proof.
  intros Hne Hrows. unfold softmax_plus_fn_attn.
  destruct sim as [|s0 sim]; [congruence|].
  set (f := fun i row =>
              softmax_plus_row
                (fexp (fadd (fmul alpha (flog (nth i seq_lens fzero))) beta)) row).
  set (g := fun p : nat * vec T => match f (fst p) (snd p) with
                                   | Some w => w
                                   | None => []
                                   end).
  exists (map g (combine (seq 0 (length (s0 :: sim))) (s0 :: sim))). split.
  - unfold imap, map2. apply collect_map_some. intros p Hin.
    rewrite Forall_forall in Hrows.
    assert (Hs : In (snd p) (s0 :: sim)).
    { destruct p as [i r]. now apply in_combine_r in Hin. }
    destruct (softmax_plus_row_some
                (fexp (fadd (fmul alpha (flog (nth (fst p) seq_lens fzero))) beta))
                (Hrows _ Hs)) as [w [E _]].
    unfold g, f. now rewrite E.
  - rewrite length_map, length_combine, length_seq. lia.
Qed.

Lemma plus_one_attn_row (c : T) (sim attn : mat T) (i : nat) :
  softmax_plus_one_attn c sim = Some attn -> i < length sim ->
  softmax_plus_row (fexp c) (nth i sim []) = Some (nth i attn []).
Proof.
  intros E Hi. unfold softmax_plus_one_attn in E.
  destruct sim as [|s0 sim]; [discriminate|].
  pose proof (@collect_nth _ _ attn i [] E) as H.
  rewrite length_map in H. specialize (H Hi).
  now rewrite (nth_map_lt _ (s0 :: sim) [] None Hi) in H.
Qed.

Lemma plus_fn_attn_row (alpha beta : T) (seq_lens : vec T) (sim attn : mat T) (i : nat) :
  softmax_plus_fn_attn alpha beta seq_lens sim = Some attn -> i < length sim ->
  softmax_plus_row (fexp (fadd (fmul alpha (flog (nth i seq_lens fzero))) beta))
                   (nth i sim [])
  = Some (nth i attn []).
Proof.
  intros E Hi. unfold softmax_plus_fn_attn in E.
  destruct sim as [|s0 sim]; [discriminate|].
  pose proof (@collect_nth _ _ attn i [] E) as H.
  rewrite imap_length in H. specialize (H Hi).
  now rewrite (nth_imap _ (s0 :: sim) [] None Hi) in H.
Qed.

Lemma manual_shape (dim : nat) (b : AttentionBase T) (F : nat -> mat T -> mat T)
    (x : mat T) :
  well_shaped dim b x -> (forall hh sim, length (F hh sim) = length sim) ->
  length (finish b (map (fun hh =>
            apply_attention
              (F hh (masked_similarity (length x) (head_proj (to_q b) (heads b) hh x)
                                       (head_proj (to_k b) (heads b) hh x)))
              (head_proj (to_v b) (heads b) hh x)) (seq 0 (heads b)))) = length x
  /\ Forall (fun row => length row = dim)
       (finish b (map (fun hh =>
            apply_attention
              (F hh (masked_similarity (length x) (head_proj (to_q b) (heads b) hh x)
                                       (head_proj (to_k b) (heads b) hh x)))
              (head_proj (to_v b) (heads b) hh x)) (seq 0 (heads b)))).
Proof.
  intros (Hh & _ & _ & _ & _ & (Ho & Hob) & _) HF.
  apply finish_shape; try assumption.
  rewrite first_head by exact Hh. unfold apply_attention.
  rewrite length_map, HF. apply masked_similarity_length. apply head_proj_length.
Qed.

(** With at least one position a manual softmax that returns on every
    similarity matrix with a value in each row returns in every head,
    [G hh] in head hh, and the module returns the projection of the
    merged heads. *)
Lemma manual_heads_return (b : AttentionBase T) (F : nat -> mat T -> option (mat T))
    (x : mat T) :
  1 <= length x ->
  (forall hh sim, sim <> [] -> Forall (fun r => r <> []) sim ->
     exists attn, F hh sim = Some attn /\ length attn = length sim) ->
  exists G : nat -> mat T,
    (forall hh,
       F hh (masked_similarity (length x) (head_proj (to_q b) (heads b) hh x)
                               (head_proj (to_k b) (heads b) hh x)) = Some (G hh)
       /\ length (G hh) = length x)
    /\ option_map (finish b)
         (collect (map (fun hh =>
                     option_map (fun attn =>
                                   apply_attention attn (head_proj (to_v b) (heads b) hh x))
                       (F hh (masked_similarity (length x)
                                (head_proj (to_q b) (heads b) hh x)
                                (head_proj (to_k b) (heads b) hh x))))
                   (seq 0 (heads b))))
       = Some (finish b (map (fun hh => apply_attention (G hh)
                                          (head_proj (to_v b) (heads b) hh x))
                             (seq 0 (heads b)))).
Proof.
  intros Hn HF.
  set (G := fun hh => match F hh (masked_similarity (length x)
                                    (head_proj (to_q b) (heads b) hh x)
                                    (head_proj (to_k b) (heads b) hh x)) with
                      | Some attn => attn
                      | None => []
                      end).
  assert (HG : forall hh,
             F hh (masked_similarity (length x) (head_proj (to_q b) (heads b) hh x)
                                     (head_proj (to_k b) (heads b) hh x))
             = Some (G hh)
             /\ length (G hh) = length x).
  { intros hh.
    destruct (@masked_similarity_rows (length x)
                (head_proj (to_q b) (heads b) hh x) (head_proj (to_k b) (heads b) hh x))
      as [Hne Hrows]; try apply head_proj_length; try exact Hn.
    destruct (HF hh _ Hne Hrows) as [attn [E L]].
    unfold G. rewrite E. split; [reflexivity|].
    rewrite L. apply masked_similarity_length. apply head_proj_length. }
  exists G. split; [exact HG|].
  rewrite (collect_map_some _
             (fun hh => apply_attention (G hh) (head_proj (to_v b) (heads b) hh x)));
    [reflexivity|].
  intros hh _. now rewrite (proj1 (HG hh)).
Qed.

(** A manual softmax that returns on every similarity matrix with a value
    in each row returns in every head, and the module returns. *)
Lemma manual_returns (dim : nat) (b : AttentionBase T) (F : nat -> mat T -> option (mat T))
    (x : mat T) :
  well_shaped dim b x -> 1 <= length x ->
  (forall hh sim, sim <> [] -> Forall (fun r => r <> []) sim ->
     exists attn, F hh sim = Some attn /\ length attn = length sim) ->
  exists out,
    option_map (finish b)
      (collect (map (fun hh =>
                  option_map (fun attn =>
                                apply_attention attn (head_proj (to_v b) (heads b) hh x))
                    (F hh (masked_similarity (length x)
                             (head_proj (to_q b) (heads b) hh x)
                             (head_proj (to_k b) (heads b) hh x))))
                (seq 0 (heads b)))) = Some out
    /\ length out = length x /\ Forall (fun row => length row = dim) out.
Proof.
  intros Hw Hn HF.
  set (G := fun hh => match F hh (masked_similarity (length x)
                                    (head_proj (to_q b) (heads b) hh x)
                                    (head_proj (to_k b) (heads b) hh x)) with
                      | Some attn => attn
                      | None => []
                      end).
  assert (HG : forall hh,
             F hh (masked_similarity (length x) (head_proj (to_q b) (heads b) hh x)
                                     (head_proj (to_k b) (heads b) hh x))
             = Some (G hh)
             /\ length (G hh) = length x).
  { intros hh.
    destruct (@masked_similarity_rows (length x)
                (head_proj (to_q b) (heads b) hh x) (head_proj (to_k b) (heads b) hh x))
      as [Hne Hrows]; try apply head_proj_length; try exact Hn.
    destruct (HF hh _ Hne Hrows) as [attn [E L]].
    unfold G. rewrite E. split; [reflexivity|].
    rewrite L. apply masked_similarity_length. apply head_proj_length. }
  exists (finish b (map (fun hh => apply_attention (G hh)
                                     (head_proj (to_v b) (heads b) hh x))
                        (seq 0 (heads b)))).
  split.
  - rewrite (collect_map_some _
               (fun hh => apply_attention (G hh) (head_proj (to_v b) (heads b) hh x)));
      [reflexivity|].
    intros hh _. now rewrite (proj1 (HG hh)).
  - destruct Hw as (Hh & _ & _ & _ & _ & (Ho & Hob) & _).
    apply finish_shape; try assumption.
    rewrite first_head by exact Hh. unfold apply_attention.
    rewrite length_map. apply HG.
Qed.

(** Without a position there is no value for torch.max, in any head. *)
Lemma manual_raises (b : AttentionBase T) (F : nat -> mat T -> option (mat T))
    (V : nat -> mat T) :
  1 <= heads b -> (forall hh, F hh [] = None) ->
  option_map (finish b)
    (collect (map (fun hh =>
                option_map (fun attn => apply_attention attn (V hh))
                  (F hh (masked_similarity 0 (head_proj (to_q b) (heads b) hh [])
                                           (head_proj (to_k b) (heads b) hh []))))
              (seq 0 (heads b)))) = None.
Proof.
  intros Hh HF. rewrite collect_none; [reflexivity|].
  apply in_map_iff. exists 0. split; [|apply in_seq; lia].
  change (masked_similarity 0 (head_proj (to_q b) (heads b) 0 [])
                            (head_proj (to_k b) (heads b) 0 [])) with (@nil (list T)).
  now rewrite HF.
Qed.

(** X2.  On a well-shaped input with at least one position every variant
    returns, with as many positions as it received, each of width dim.
    On the empty sequence the two variants that call torch.max raise. *)
Theorem forward1_shape (dim : nat) (a : Attention T) (x : mat T) :
  well_shaped dim (base_of a) x -> params_shaped a ->
  (1 <= length x ->
   exists out, forward1 a x = Some out
               /\ length out = length x
               /\ Forall (fun row => length row = dim) out)
  /\ (calls_torch_max a = true -> forward1 a [] = None).
Proof.
  intros Hw Hp.
  assert (Hh : 1 <= heads (base_of a)) by apply Hw.
  destruct a as [b|m|m|b|b|m|m|m]; simpl forward1; simpl base_of in *; simpl in Hp;
    (split; [intros Hn | simpl; try discriminate; intros _]).
  - eexists. split; [reflexivity|].
    unfold AttentionBase_forward1. destruct Hw as (_ & _ & _ & _ & _ & (Ho & Hob) & _).
    apply finish_shape; try assumption.
    rewrite base_heads, first_head by exact Hh.
    now rewrite sdpa_head_length_gen, head_proj_length.
  - eexists. split; [reflexivity|].
    apply prescaled_shape; [exact Hw|].
    unfold relative_scaling, log_base, arange. simpl nth.
    now rewrite !length_map, length_seq.
  - eexists. split; [reflexivity|].
    apply prescaled_shape; [exact Hw|].
    unfold relative_scaling_2.
    destruct (tensor_of (rs2_attn_bias m)) as [|b0 rest]; [simpl in Hp; lia|].
    simpl nth. unfold log_base, arange. now rewrite !length_map, length_seq.
  - eexists. split; [reflexivity|].
    apply prescaled_shape; [exact Hw|].
    unfold yarn_scaling, arange. simpl nth. now rewrite !length_map, length_seq.
  - eexists. split; [reflexivity|].
    destruct (manual_forward_heads b x) as [E _]. rewrite E.
    apply (manual_shape (fun _ => adaptive_temperature_softmax) Hw).
    intros hh sim. unfold adaptive_temperature_softmax. apply length_map.
  - eexists. split; [reflexivity|].
    apply prescaled_shape; [exact Hw|].
    unfold create_scaling. destruct Hp as [Ha Hb].
    destruct (ls_alphas m) as [|a0 ra]; [simpl in Ha; lia|].
    destruct (ls_betas m) as [|b0 rb]; [simpl in Hb; lia|].
    simpl nth. unfold arange. now rewrite !length_map, length_seq.
  - destruct (manual_forward_heads (p1_base m) x) as [_ [E _]]. rewrite (E m eq_refl).
    apply (manual_returns
             (fun hh => softmax_plus_one_attn (nth hh (p1_denom_bias m) fzero)) Hw Hn).
    intros hh sim. apply plus_one_attn_some.
  - destruct (manual_forward_heads (p1_base m) []) as [_ [E _]]. rewrite (E m eq_refl).
    apply (@manual_raises (p1_base m)
             (fun hh => softmax_plus_one_attn (nth hh (p1_denom_bias m) fzero))
             (fun hh => head_proj (to_v (p1_base m)) (heads (p1_base m)) hh []) Hh).
    reflexivity.
  - destruct (manual_forward_heads (pf_base m) x) as [_ [_ E]]. rewrite (E m eq_refl).
    apply (manual_returns
             (fun hh => softmax_plus_fn_attn (nth hh (pf_alphas m) fzero)
                                             (nth hh (pf_betas m) fzero)
                                             (arange (length x))) Hw Hn).
    intros hh sim. apply plus_fn_attn_some.
  - destruct (manual_forward_heads (pf_base m) []) as [_ [_ E]]. rewrite (E m eq_refl).
    apply (@manual_raises (pf_base m)
             (fun hh => softmax_plus_fn_attn (nth hh (pf_alphas m) fzero)
                                             (nth hh (pf_betas m) fzero)
                                             (arange (length (@nil (list T)))))
             (fun hh => head_proj (to_v (pf_base m)) (heads (pf_base m)) hh []) Hh).
    reflexivity.
Qed.

(** *** What the mask leaves alone *)

(** X3.  On and below the diagonal the masked similarity is the scaled
    similarity; in particular every position keeps its own logit. *)
Theorem mask_keeps_lower_triangle (q k : mat T) (i j : nat) :
  i < length q -> i < length k -> j <= i ->
  nth j (nth i (masked_similarity (length k) q k) []) fzero
  = nth j (nth i (scaled_similarity q k) []) fzero.
Proof.
  intros Hq Hk Hj.
  rewrite masked_similarity_row, scaled_similarity_row by assumption.
  rewrite app_nth1 by (rewrite length_map, length_firstn; lia).
  rewrite <- firstn_map, nth_firstn.
  destruct (Nat.ltb_spec j (S i)); [reflexivity | lia].
Qed.

(** C9.  Two AttentionRelativeScaling2 modules with the same projections,
    the same base length and the same attn_bias tensor, one holding it as
    a trainable parameter and the other as a fixed buffer, compute the
    same forward output on every input; so do the two modules the
    constructor builds with learned_bias = True and learned_bias = False
    from the same arguments. *)
Theorem learned_bias_flag_irrelevant (base : AttentionBase T) (base_seq_len : R)
    (attn_bias : vec T) (attn_bias0 : R) (x : list (mat T)) :
  forward (RelativeScaling2 {| rs2_base := base;
                               rs2_base_seq_len := base_seq_len;
                               rs2_attn_bias := Trainable attn_bias |}) x
  = forward (RelativeScaling2 {| rs2_base := base;
                                 rs2_base_seq_len := base_seq_len;
                                 rs2_attn_bias := Fixed attn_bias |}) x
  /\
  forward (RelativeScaling2
             (AttentionRelativeScaling2_init base base_seq_len attn_bias0 true)) x
  = forward (RelativeScaling2
               (AttentionRelativeScaling2_init base base_seq_len attn_bias0 false)) x.
Proof. split; reflexivity. Qed.

(** The one-head instance is well shaped on every input of width 1. *)
Lemma well_shaped_base_1 (wq wk wv wo : R) (x : mat T) :
  Forall (fun row => length row = 1) x -> well_shaped 1 (base_1 wq wk wv wo) x.
Proof.
  intros Hx. unfold well_shaped, linear_shape, base_1, linear_1. simpl.
  repeat split; try lia; try (repeat constructor); try exact Hx.
  - exists 1. split; lia.
  - exists [fzero]. split; reflexivity.
Qed.

End HeadView.

Lemma merge_split_heads_witness :
  merge_heads (split_heads 2 [[1; 2; 3; 4]; [5; 6; 7; 8]]%nat)
  = [[1; 2; 3; 4]; [5; 6; 7; 8]]%nat.
Proof.
  apply (@merge_split_heads nat 2 2 [[1; 2; 3; 4]; [5; 6; 7; 8]]%nat).
  - lia.
  - repeat constructor.
Defined.

Lemma forward1_shape_witness :
  exists out,
    forward1 (ops := Exact.scalar real_dtype)
      (SoftmaxPlusOne
         (AttentionSoftmaxPlusOne_init (ops := Exact.scalar real_dtype)
            (base_1 (ops := Exact.scalar real_dtype) 1 1 1 1))) [[1]; [2]] = Some out
    /\ length out = length [[1]; [2]]
    /\ Forall (fun row => length row = 1%nat) out.
Proof.
  refine (proj1 (@forward1_shape R (Exact.scalar real_dtype) real_backend 1
                   (SoftmaxPlusOne
                      (AttentionSoftmaxPlusOne_init (ops := Exact.scalar real_dtype)
                         (base_1 (ops := Exact.scalar real_dtype) 1 1 1 1)))
                   [[1]; [2]] _ _) _).
  - apply well_shaped_base_1. repeat constructor.
  - exact I.
  - simpl. lia.
Defined.

Lemma mask_keeps_lower_triangle_witness :
  nth 0 (nth 1 (masked_similarity (ops := Exact.scalar real_dtype) 2
                  [[1]; [2]] [[3]; [4]]) []) 0
  = nth 0 (nth 1 (scaled_similarity (ops := Exact.scalar real_dtype)
                    [[1]; [2]] [[3]; [4]]) []) 0.
Proof.
  apply (@mask_keeps_lower_triangle R (Exact.scalar real_dtype) [[1]; [2]] [[3]; [4]]
           1%nat 0%nat); simpl; lia.
Defined.

(** ** Exact arithmetic: sums, maxima and softmax *)

Module ExactTheory.
Section WithDtype.

Variable d : Dtype.

#[local] Instance ops : Scalar R := Exact.scalar d.

Context {backend : Backend R}.

Lemma sum_cons (x : R) (l : list R) : sum (x :: l) = x + sum l.
Proof. reflexivity. Qed.

Lemma sum_nil : sum (@nil R) = 0.
Proof. reflexivity. Qed.

Lemma sum_app (l l' : list R) : sum (l ++ l') = sum l + sum l'.
Proof.
  induction l as [|x l IH]; simpl app.
  - rewrite sum_nil; lra.
  - rewrite !sum_cons, IH; lra.
Qed.

Lemma sum_nonneg (l : list R) : Forall nonneg l -> 0 <= sum l.
Proof.
  induction 1 as [|x l Hx _ IH].
  - rewrite sum_nil; lra.
  - rewrite sum_cons. unfold nonneg in Hx. lra.
Qed.

Lemma sum_ge_In (l : list R) (x : R) : Forall nonneg l -> In x l -> x <= sum l.
Proof.
  induction 1 as [|y l Hy Hl IH]; intros Hin.
  - destruct Hin.
  - rewrite sum_cons. pose proof (sum_nonneg Hl) as Hs. unfold nonneg in Hy.
    destruct Hin as [->|Hin].
    + lra.
    + specialize (IH Hin). lra.
Qed.

Lemma sum_map_div (l : list R) (s : R) : sum (map (fun e => e / s) l) = sum l / s.
Proof.
  induction l as [|x l IH]; simpl map.
  - rewrite sum_nil. unfold Rdiv. ring.
  - rewrite !sum_cons, IH. unfold Rdiv. ring.
Qed.

Lemma sum_zeros (n : nat) : sum (repeat 0 n) = 0.
Proof.
  induction n as [|n IH]; simpl repeat.
  - apply sum_nil.
  - rewrite sum_cons, IH. lra.
Qed.

Lemma fold_max_In (x : R) (xs : list R) :
  In (fold_right Rmax x xs) (x :: xs).
Proof.
  induction xs as [|y ys IH]; simpl fold_right.
  - left; reflexivity.
  - unfold Rmax at 1. destruct (Rle_dec y (fold_right Rmax x ys)) as [_|_].
    + destruct IH as [IH|IH]; [left; exact IH | right; right; exact IH].
    + right; left; reflexivity.
Qed.

Lemma row_max_In (row : list R) : row <> [] -> In (rowmax row) row.
Proof.
  destruct row as [|x xs]; [congruence|]. intros _. apply fold_max_In.
Qed.

Lemma fold_max_ge (x : R) (xs : list R) (y : R) :
  In y (x :: xs) -> y <= fold_right Rmax x xs.
Proof.
  induction xs as [|z zs IH]; simpl fold_right; intros Hin.
  - destruct Hin as [->|[]]. lra.
  - destruct Hin as [->|[->|Hin]].
    + eapply Rle_trans; [apply IH; left; reflexivity | apply Rmax_r].
    + apply Rmax_l.
    + eapply Rle_trans; [apply IH; right; exact Hin | apply Rmax_r].
Qed.

Lemma row_max_ge (row : list R) (y : R) : In y row -> y <= rowmax row.
Proof.
  destruct row as [|x xs]; [intros []|]. apply fold_max_ge.
Qed.

Lemma shifted_exp_nonneg (row : list R) : Forall nonneg (shifted_exp d row).
Proof.
  unfold shifted_exp. apply Forall_forall. intros e He.
  apply in_map_iff in He. destruct He as [x [<- _]]. apply dt_exp_nonneg.
Qed.

Lemma shifted_exp_sum_ge_1 (row : list R) : row <> [] -> 1 <= sum (shifted_exp d row).
Proof.
  intros Hne. apply sum_ge_In; [apply shifted_exp_nonneg|].
  unfold shifted_exp. apply in_map_iff. exists (rowmax row). split.
  - rewrite Rminus_diag. apply dt_exp_0.
  - apply row_max_In; exact Hne.
Qed.

Lemma row_max_some (row : list R) : row <> [] -> row_max row = Some (rowmax row).
Proof. destruct row; [congruence | reflexivity]. Qed.

Lemma softmax_unfold (row : list R) :
  softmax row = map (fun e => e / sum (shifted_exp d row)) (shifted_exp d row).
Proof. destruct row; reflexivity. Qed.

Lemma regular_real (x : R) : regular x = true.
Proof.
  unfold regular. change (Rgtb (x - x + 1) 0 = true). unfold Rgtb.
  destruct (Rgt_dec (x - x + 1) 0); [reflexivity | lra].
Qed.

Lemma all_regular (row : list R) : forallb regular row = true.
Proof. apply forallb_forall. intros x _. apply regular_real. Qed.

(** Over the reals the backend is never consulted. *)
Lemma causal_softmax_real (i : nat) (row : list R) :
  causal_softmax i row = softmax (firstn (S i) row) ++ repeat 0 (length row - S i).
Proof. unfold causal_softmax. cbv zeta. now rewrite all_regular. Qed.

Lemma softmax_length (row : list R) : length (softmax row) = length row.
Proof. rewrite softmax_unfold. unfold shifted_exp. now rewrite !length_map. Qed.

Lemma softmax_nonneg (row : list R) : Forall nonneg (softmax row).
Proof.
  destruct row as [|x xs]; [constructor|].
  rewrite softmax_unfold. apply Forall_forall. intros p Hp.
  apply in_map_iff in Hp. destruct Hp as [e [<- He]].
  pose proof (shifted_exp_nonneg (x :: xs)) as Hall.
  rewrite Forall_forall in Hall. specialize (Hall e He). unfold nonneg in *.
  assert (1 <= sum (shifted_exp d (x :: xs))) by (apply shifted_exp_sum_ge_1; discriminate).
  unfold Rdiv. apply Rmult_le_pos; [exact Hall|].
  left. apply Rinv_0_lt_compat. lra.
Qed.

Lemma softmax_sum (row : list R) : row <> [] -> sum (softmax row) = 1.
Proof.
  intros Hne. rewrite softmax_unfold, sum_map_div.
  pose proof (shifted_exp_sum_ge_1 Hne). field. lra.
Qed.

(** *** adaptive_temperature_softmax *)

Lemma entropy_of_shannon (p : list R) : entropy_of p = shannon_entropy p.
Proof.
  unfold shannon_entropy.
  change (entropy_of p) with (sum (map (fun pj => - pj * ln (pj + 1e-9)) p)).
  induction p as [|x p IH].
  - change (0 = - 0). lra.
  - change (- x * ln (x + 1e-9) + sum (map (fun pj => - pj * ln (pj + 1e-9)) p)
            = - (x * ln (x + 1e-9)
                 + fold_right Rplus 0 (map (fun pj => pj * ln (pj + 1e-9)) p))).
    rewrite IH. lra.
Qed.

Lemma poly_result_quartic (H : R) : poly_result H = quartic H.
Proof. unfold poly_result, quartic, poly_coeff. cbn. lra. Qed.

Lemma adaptive_beta_low (row : list R) :
  shannon_entropy (softmax row) <= 0.5 -> adaptive_beta row = 1.
Proof.
  intros Hle. unfold adaptive_beta. rewrite entropy_of_shannon. cbn.
  unfold Rgtb. destruct (Rgt_dec _ _) as [Hgt|_]; lra.
Qed.

Lemma adaptive_beta_high (row : list R) :
  0.5 < shannon_entropy (softmax row) ->
  adaptive_beta row = Rmax (quartic (shannon_entropy (softmax row))) 1.
Proof.
  intros Hlt. unfold adaptive_beta. rewrite entropy_of_shannon, poly_result_quartic. cbn.
  unfold Rgtb. destruct (Rgt_dec _ _) as [_|Hn]; [|lra].
  f_equal. lra.
Qed.

Lemma adaptive_beta_ge_1 (row : list R) : 1 <= adaptive_beta row.
Proof.
  destruct (Rle_or_lt (shannon_entropy (softmax row)) 0.5) as [Hle|Hlt].
  - rewrite adaptive_beta_low by exact Hle. lra.
  - rewrite adaptive_beta_high by exact Hlt. apply Rmax_r.
Qed.

Lemma map_mul_one (row : list R) : map (fun x => x * 1) row = row.
Proof.
  induction row as [|x row IH]; simpl; [reflexivity|]. rewrite IH. f_equal. lra.
Qed.

(** *** Weights that vanish beyond position i *)

Lemma dot_nil_l (u : list R) : dot [] u = 0.
Proof. reflexivity. Qed.

Lemma dot_cons (a b : R) (u v : list R) : dot (a :: u) (b :: v) = a * b + dot u v.
Proof. reflexivity. Qed.

Lemma dot_zeros (z : nat) (u : list R) : dot (repeat 0 z) u = 0.
Proof.
  revert u. induction z as [|z IH]; intros u; [reflexivity|].
  destruct u as [|b u]; [reflexivity|].
  simpl repeat. rewrite dot_cons, IH. lra.
Qed.





(** *** The causal softmax of scaled_dot_product_attention *)

(** Row i of the attention weights of sdpa: the softmax over keys 0..i,
    then zeros. *)
Lemma sdpa_weights_row (sc : option R) (q k : mat R) (i : nat) :
  (i < length q)%nat -> (i < length k)%nat ->
  nth i (sdpa_weights sc q k) []
  = softmax (map (fun kj => dot (nth i q []) kj
                            * match sc with
                              | Some s => s
                              | None => 1 / sqrt (INR (ncols q))
                              end)
                 (firstn (S i) k))
    ++ repeat 0 (length k - S i).
Proof.
  intros Hq Hk. unfold sdpa_weights.
  rewrite (nth_imap _ q [] [] Hq).
  rewrite causal_softmax_real, firstn_map, length_map. reflexivity.
Qed.


Lemma sdpa_head_length (sc : option R) (q k v : mat R) :
  length (sdpa_head sc q k v) = length q.
Proof. unfold sdpa_head, sdpa_weights. now rewrite length_map, imap_length. Qed.


(** *** Causality of the variants built on sdpa *)




(** *** Causality of the manually masked variants *)


Lemma plus_row_unfold (extra : R) (row : list R) :
  plus_row d extra row
  = map (fun e => e / (sum (shifted_exp d row) + extra)) (shifted_exp d row).
Proof. reflexivity. Qed.

(** Where torch.max finds a value the manual softmax returns the row of
    the spec's formula; on an empty row it raises. *)
Lemma manual_row_returns (extra : R) (row : list R) :
  row <> [] -> softmax_plus_row extra row = Some (plus_row d extra row).
Proof. destruct row; [congruence | reflexivity]. Qed.

Lemma manual_row_raises (extra : R) : softmax_plus_row extra [] = None.
Proof. reflexivity. Qed.

Lemma shifted_exp_nth (row : list R) (j : nat) :
  (j < length row)%nat ->
  nth j (shifted_exp d row) 0 = dt_exp d (nth j row 0 - rowmax row).
Proof.
  intros Hj. unfold shifted_exp. now rewrite (nth_map_lt _ row 0 0 Hj).
Qed.







Lemma plus_one_attn_returns (c : R) (sim : mat R) :
  sim <> [] -> Forall (fun r => r <> []) sim ->
  softmax_plus_one_attn c sim = Some (imap (fun _ => plus_row d (fexp c)) sim).
Proof.
  intros Hne Hrows. unfold softmax_plus_one_attn.
  destruct sim as [|s0 sim]; [congruence|].
  rewrite <- (map_as_imap (plus_row d (fexp c))).
  apply collect_map_some. intros row Hin. apply manual_row_returns.
  rewrite Forall_forall in Hrows. now apply Hrows.
Qed.











(** C2.  On every logits tensor whose rows are non-empty,
    adaptive_temperature_softmax returns one probability distribution per
    row: the output has the shape of the input, every entry is
    non-negative, every row sums to 1, and row i is the softmax of row i
    of the logits multiplied by the inverse temperature computed from
    row i alone. *)
Theorem adaptive_temperature_softmax_distribution (logits : mat R) :
  Forall (fun row => row <> []) logits ->
  let out := adaptive_temperature_softmax logits in
  length out = length logits /\
  forall i, (i < length logits)%nat ->
    let row := nth i logits [] in
    let p := nth i out [] in
    length p = length row /\
    Forall nonneg p /\
    sum p = 1 /\
    p = softmax (map (fun x => x * adaptive_beta row) row).
Proof.
  intros Hne out. split.
  - unfold out, adaptive_temperature_softmax. apply length_map.
  - intros i Hi row p.
    assert (Hp : p = adaptive_temperature_softmax_row row).
    { unfold p, out, adaptive_temperature_softmax, row.
      change (@nil R) with (adaptive_temperature_softmax_row (@nil R)) at 1.
      apply map_nth. }
    assert (Hrow : row <> []).
    { rewrite Forall_forall in Hne. apply Hne. unfold row. apply nth_In. exact Hi. }
    rewrite Hp. unfold adaptive_temperature_softmax_row.
    assert (Hsc : map (fun x => x * adaptive_beta row) row <> []).
    { destruct row; [congruence | discriminate]. }
    repeat split.
    + rewrite softmax_length. apply length_map.
    + apply softmax_nonneg.
    + apply softmax_sum. exact Hsc.
Qed.

(** C3.  With H the Shannon entropy of the baseline softmax of a row:
    when H <= 0.5 the inverse temperature is 1 and the output row is the
    plain softmax of the row; when H > 0.5 the inverse temperature is
    max(poly(H), 1); in both cases it is at least 1. *)
Theorem adaptive_beta_cases (row : list R) :
  let H := shannon_entropy (softmax row) in
  (H <= 0.5 ->
     adaptive_beta row = 1 /\ adaptive_temperature_softmax_row row = softmax row) /\
  (0.5 < H -> adaptive_beta row = Rmax (quartic H) 1) /\
  1 <= adaptive_beta row.
Proof.
  intro H. repeat split.
  - apply adaptive_beta_low. assumption.
  - unfold adaptive_temperature_softmax_row.
    rewrite adaptive_beta_low by assumption.
    change (softmax (map (fun x => x * 1) row) = softmax row).
    now rewrite map_mul_one.
  - apply adaptive_beta_high.
  - apply adaptive_beta_ge_1.
Qed.

(** *** softmax with one more term in the denominator *)

Lemma plus_row_entry (extra : R) (row : list R) (j : nat) :
  (j < length row)%nat ->
  nth j (plus_row d extra row) 0
  = nth j (shifted_exp d row) 0 / (sum (shifted_exp d row) + extra).
Proof.
  intros Hj. rewrite plus_row_unfold.
  rewrite (nth_map_lt _ (shifted_exp d row) 0 0); [reflexivity|].
  unfold shifted_exp. now rewrite length_map.
Qed.

Lemma softmax_entry (row : list R) (j : nat) :
  (j < length row)%nat ->
  nth j (softmax row) 0 = nth j (shifted_exp d row) 0 / sum (shifted_exp d row).
Proof.
  intros Hj. rewrite softmax_unfold.
  rewrite (nth_map_lt _ (shifted_exp d row) 0 0); [reflexivity|].
  unfold shifted_exp. now rewrite length_map.
Qed.

Lemma shifted_exp_entry_nonneg (row : list R) (j : nat) :
  0 <= nth j (shifted_exp d row) 0.
Proof.
  destruct (nth_in_or_default j (shifted_exp d row) 0) as [Hin | Hd]; [|rewrite Hd; lra].
  pose proof (shifted_exp_nonneg row) as Hall. rewrite Forall_forall in Hall.
  apply Hall. exact Hin.
Qed.

Lemma plus_one_le_softmax (row : list R) (j : nat) :
  (j < length row)%nat ->
  nth j (plus_row d 1 row) 0 <= nth j (softmax row) 0
  /\ (0 < nth j (shifted_exp d row) 0 ->
      nth j (plus_row d 1 row) 0 < nth j (softmax row) 0).
Proof.
  intros Hj. rewrite plus_row_entry, softmax_entry by exact Hj.
  assert (Hne : row <> []) by (destruct row; [simpl in Hj; lia | discriminate]).
  pose proof (shifted_exp_sum_ge_1 Hne) as HS.
  pose proof (shifted_exp_entry_nonneg row j) as He.
  set (S := sum (shifted_exp d row)) in *. set (e := nth j (shifted_exp d row) 0) in *.
  assert (Hinv : / (S + 1) < / S) by (apply Rinv_lt_contravar; nra).
  assert (0 < / (S + 1)) by (apply Rinv_0_lt_compat; lra).
  unfold Rdiv. split; [|intros Hpos]; nra.
Qed.

Lemma plus_row_sum_lt_1 (extra : R) (row : list R) :
  0 < extra -> sum (plus_row d extra row) < 1.
Proof.
  intros Hext. rewrite plus_row_unfold, sum_map_div.
  pose proof (sum_nonneg (shifted_exp_nonneg row)) as HS.
  set (S := sum (shifted_exp d row)) in *.
  apply Rmult_lt_reg_r with (r := S + extra); [lra|].
  unfold Rdiv. rewrite Rmult_assoc, Rinv_l by lra. lra.
Qed.

(** C4 (amended).  AttentionSoftmaxPlusOne as constructed (denom_bias =
    0), on a similarity matrix in which torch.max finds a value in every
    row: the manual softmax returns; on every row the denominator is the
    sum of the shifted exponentials plus 1; every weight is at most the
    plain-softmax weight, and strictly smaller exactly where its
    exponential is non-zero (an entry whose exponential underflows to 0,
    as a masked one does, is 0 in both), hence everywhere when the
    exponential is strictly positive; and the row of weights sums to
    strictly less than 1, as it does for any other denom_bias whose
    exponential is positive. *)
Theorem softmax_plus_one_shrinks (base : AttentionBase R) (hh : nat) (sim : mat R) :
  sim <> [] -> Forall (fun r => r <> []) sim ->
  let m := AttentionSoftmaxPlusOne_init base in
  (exists attn,
     softmax_plus_one_attn (nth hh (p1_denom_bias m) fzero) sim = Some attn /\
     length attn = length sim /\
     forall i, (i < length sim)%nat ->
       let row := nth i sim [] in
       let e := shifted_exp d row in
       let a := nth i attn [] in
       a = map (fun ej => ej / (sum e + 1)) e /\
       (forall j, (j < length row)%nat ->
          nth j a 0 <= nth j (softmax row) 0 /\
          (nth j a 0 < nth j (softmax row) 0 <-> 0 < nth j e 0)) /\
       ((forall t, 0 < dt_exp d t) ->
        forall j, (j < length row)%nat -> nth j a 0 < nth j (softmax row) 0) /\
       sum a < 1) /\
  (forall denom_bias_h, 0 < dt_exp d denom_bias_h ->
     exists attn,
       softmax_plus_one_attn denom_bias_h sim = Some attn /\
       forall i, (i < length sim)%nat -> sum (nth i attn []) < 1).
Proof.
  intros Hne Hrows m. split.
  - rewrite plus_one_attn_returns by assumption.
    eexists. split; [reflexivity|]. split; [apply imap_length|].
    intros i Hi row e a.
    assert (Ha : a = plus_row d 1 row).
    { unfold a, row, m. rewrite (nth_imap _ sim [] [] Hi).
      change (p1_denom_bias (AttentionSoftmaxPlusOne_init base))
        with (repeat (@fzero R ops) (heads base)).
      rewrite nth_repeat.
      change (fexp (@fzero R ops)) with (dt_exp d 0). now rewrite dt_exp_0. }
    rewrite Ha. split; [reflexivity|]. split; [|split].
    + intros j Hj. destruct (plus_one_le_softmax row Hj) as [Hle Hlt].
      split; [exact Hle|]. split; [|exact Hlt].
      intros Hsm. pose proof (shifted_exp_entry_nonneg row j) as He.
      destruct He as [He | He]; [exact He|]. exfalso.
      rewrite plus_row_entry, softmax_entry in Hsm by exact Hj.
      fold e in He. unfold e in He. rewrite <- He in Hsm.
      unfold Rdiv in Hsm. rewrite !Rmult_0_l in Hsm. lra.
    + intros Hpos j Hj. apply plus_one_le_softmax; [exact Hj|].
      rewrite shifted_exp_nth by exact Hj. apply Hpos.
    + apply plus_row_sum_lt_1. lra.
  - intros c Hc. rewrite plus_one_attn_returns by assumption.
    eexists. split; [reflexivity|]. intros i Hi.
    rewrite (nth_imap _ sim [] [] Hi). apply plus_row_sum_lt_1. exact Hc.
Qed.

(** *** create_scaling *)

(** C8.  For a module built by the constructor for [dim] and the heads of
    [base], with any trained alphas and betas, create_scaling at head hh
    and position p >= 1 is
    1 / ((1 + alpha * ln p + beta) * sqrt (dim / heads)). *)
Theorem create_scaling_formula (dim : nat) (base : AttentionBase R)
    (alphas betas : list R) (n hh p : nat) :
  (1 <= p < n)%nat -> (hh < length alphas)%nat -> (hh < length betas)%nat ->
  let m0 := AttentionLearnedScaling_init dim base in
  let m := {| ls_base := ls_base m0;
              ls_alphas := alphas;
              ls_betas := betas;
              ls_head_dim := ls_head_dim m0;
              ls_base_scale := ls_base_scale m0 |} in
  ls_head_dim m = INR dim / INR (heads base) /\
  ls_base_scale m = sqrt (ls_head_dim m) /\
  nth p (nth hh (create_scaling m (arange n)) []) 0
  = 1 / ((1 + nth hh alphas 0 * ln (INR p) + nth hh betas 0)
         * sqrt (INR dim / INR (heads base))).
Proof.
  intros Hp Ha Hb m0 m. split; [reflexivity|]. split; [reflexivity|].
  unfold create_scaling.
  rewrite (nth_map2_lt _ (ls_alphas m) (ls_betas m) 0 0 []) by assumption.
  rewrite map_map.
  unfold arange. rewrite map_map.
  rewrite (nth_map_lt _ (seq 0 n) 0%nat 0) by (rewrite length_seq; lia).
  rewrite seq_nth by lia. reflexivity.
Qed.

(** *** Position 1 under the relative scalings *)

Lemma dot_zero_l (u v : list R) : Forall (fun e => e = 0) u -> dot u v = 0.
Proof.
  intros Hu. revert v. induction Hu as [|a u Ha _ IH]; intros v; [reflexivity|].
  destruct v as [|b v]; [reflexivity|].
  rewrite dot_cons, IH, Ha. lra.
Qed.

Lemma softmax_two_zeros : softmax [0; 0] = [1 / 2; 1 / 2].
Proof.
  rewrite softmax_unfold. unfold shifted_exp. cbn.
  rewrite Rmax_left by lra. rewrite Rminus_diag, dt_exp_0.
  f_equal; [|f_equal]; lra.
Qed.

(** A head whose query row 1 was multiplied by a zero scale. *)
Lemma zero_scale_position_1 (qh k : mat R) (srow : list R) :
  (2 <= length qh)%nat -> length k = length qh -> length srow = length qh ->
  nth 1 srow 0 = 0 ->
  position_1_uniform (length qh)
    (map2 (fun qrow s => map (fun e => fmul e s) qrow) qh srow) k.
Proof.
  intros Hn Hk Hs Hz.
  set (q := map2 (fun qrow s => map (fun e => fmul e s) qrow) qh srow).
  assert (Hq1 : nth 1 q [] = map (fun e => e * 0) (nth 1 qh [])).
  { unfold q. rewrite (nth_map2_lt _ qh srow [] 0 []) by lia. now rewrite Hz. }
  assert (Hzero : Forall (fun e => e = 0) (nth 1 q [])).
  { rewrite Hq1. apply Forall_forall. intros e He.
    apply in_map_iff in He. destruct He as [e' [<- _]]. lra. }
  assert (Hlog : forall kj, dot (nth 1 q []) kj * 1.0 = 0).
  { intros kj. rewrite dot_zero_l by exact Hzero. lra. }
  split; [exact Hzero|]. split.
  - apply Forall_forall. intros kj _. apply Hlog.
  - assert (Hql : length q = length qh) by (unfold q; rewrite map2_length; lia).
    rewrite sdpa_weights_row by lia.
    rewrite (map_ext _ (fun _ => 0)) by (intros kj; apply Hlog).
    destruct k as [|k0 [|k1 k]]; simpl in Hk; try lia.
    simpl firstn. simpl map. rewrite softmax_two_zeros.
    simpl length. rewrite <- Hk. reflexivity.
Qed.

Lemma relative_scale_at_1 (n : nat) (head_dim base c : R) :
  (2 <= n)%nat ->
  nth 1 (map (fun lb => sqrt (lb * c / head_dim)) (log_base (arange n) base)) 0 = 0.
Proof.
  intros Hn. unfold log_base, arange. rewrite !map_map.
  rewrite (nth_map_lt _ (seq 0 n) 0%nat 0) by (rewrite length_seq; lia).
  rewrite seq_nth by lia.
  change (sqrt (ln (INR 1) / ln base * c / head_dim) = 0).
  simpl INR. rewrite ln_1.
  replace (0 / ln base * c / head_dim) with 0 by (unfold Rdiv; ring).
  apply sqrt_0.
Qed.

(** C10.  In AttentionRelativeScaling1, and in AttentionRelativeScaling2
    with any per-head bias, on every input with at least two positions:
    the scale at position 1 is 0, so in every head the query at position
    1 is zero, its logits against all keys are zero, and its attention
    weights are exactly 1/2 on position 0, 1/2 on position 1 and 0 on
    later positions. *)
Theorem relative_scaling_position_1 (x : mat R) (hh : nat) :
  (2 <= length x)%nat ->
  (forall m : AttentionRelativeScaling1 R,
     (hh < heads (rs1_base m))%nat ->
     let b := rs1_base m in
     AttentionRelativeScaling1_forward1 m x
     = finish b (sdpa (Some 1.0) (scale_queries (project_q b x) (rs1_scales m x))
                      (project_k b x) (project_v b x)) /\
     nth 1 (nth 0 (rs1_scales m x) []) 0 = 0 /\
     position_1_uniform (length x)
       (nth hh (scale_queries (project_q b x) (rs1_scales m x)) [])
       (nth hh (project_k b x) [])) /\
  (forall m : AttentionRelativeScaling2 R,
     (hh < heads (rs2_base m))%nat ->
     length (tensor_of (rs2_attn_bias m)) = heads (rs2_base m) ->
     let b := rs2_base m in
     AttentionRelativeScaling2_forward1 m x
     = finish b (sdpa (Some 1.0) (scale_queries (project_q b x) (rs2_scales m x))
                      (project_k b x) (project_v b x)) /\
     nth 1 (nth hh (rs2_scales m x) []) 0 = 0 /\
     position_1_uniform (length x)
       (nth hh (scale_queries (project_q b x) (rs2_scales m x)) [])
       (nth hh (project_k b x) [])).
Proof.
  intros Hn. split.
  - intros m Hh b. split; [reflexivity|].
    assert (Hs : nth 1 (nth 0 (rs1_scales m x) []) 0 = 0).
    { unfold rs1_scales, relative_scaling. simpl nth.
      rewrite (map_ext _ (fun lb => sqrt (lb * 1 / (INR (ncols x) / INR (heads (rs1_base m))))))
        by (intros lb; cbn; f_equal; unfold Rdiv; ring).
      now apply relative_scale_at_1. }
    split; [exact Hs|].
    unfold project_q, project_k, scale_queries.
    rewrite !split_heads_linear, imap_map_seq.
    rewrite !(nth_map_lt _ (seq 0 (heads b)) 0%nat []) by (rewrite length_seq; exact Hh).
    rewrite seq_nth by exact Hh. simpl Nat.add.
    change (length (rs1_scales m x) =? 1)%nat with true. cbv iota.
    rewrite <- (head_proj_length (to_q b) (heads b) hh x).
    apply zero_scale_position_1.
    + rewrite head_proj_length. exact Hn.
    + now rewrite !head_proj_length.
    + rewrite head_proj_length. unfold rs1_scales, relative_scaling, log_base, arange.
      simpl nth. now rewrite !length_map, length_seq.
    + exact Hs.
  - intros m Hh Hb b. split; [reflexivity|].
    assert (Hs : forall h', (h' < heads b)%nat -> nth 1 (nth h' (rs2_scales m x) []) 0 = 0).
    { intros h' Hh'. unfold rs2_scales, relative_scaling_2.
      rewrite (nth_map_lt _ (tensor_of (rs2_attn_bias m)) 0 []) by (rewrite Hb; exact Hh').
      now apply relative_scale_at_1. }
    split; [apply Hs; exact Hh|].
    unfold project_q, project_k, scale_queries.
    rewrite !split_heads_linear, imap_map_seq.
    rewrite !(nth_map_lt _ (seq 0 (heads b)) 0%nat []) by (rewrite length_seq; exact Hh).
    rewrite seq_nth by exact Hh. simpl Nat.add.
    assert (Hl : length (rs2_scales m x) = heads b).
    { unfold rs2_scales, relative_scaling_2. now rewrite length_map. }
    rewrite <- (head_proj_length (to_q b) (heads b) hh x).
    assert (Hrow : forall h', (h' < heads b)%nat ->
                     length (nth h' (rs2_scales m x) []) = length x).
    { intros h' Hh'. unfold rs2_scales, relative_scaling_2.
      rewrite (nth_map_lt _ (tensor_of (rs2_attn_bias m)) 0 []) by (rewrite Hb; exact Hh').
      unfold log_base, arange. now rewrite !length_map, length_seq. }
    assert (Hh0 : (hh < heads b)%nat) by exact Hh.
    apply zero_scale_position_1.
    + rewrite head_proj_length. exact Hn.
    + now rewrite !head_proj_length.
    + rewrite head_proj_length. destruct (length (rs2_scales m x) =? 1)%nat; apply Hrow; lia.
    + destruct (length (rs2_scales m x) =? 1)%nat; apply Hs; lia.
Qed.

(** *** AttentionLearnedScaling as constructed, away from position 0 *)

Lemma dot_scale_l (u v : list R) (s : R) :
  dot (map (fun e => e * s) u) v = dot u v * s.
Proof.
  revert v. induction u as [|a u IH]; intros v.
  - rewrite !dot_nil_l. lra.
  - destruct v as [|b v]; [unfold dot; simpl; lra|].
    simpl map. rewrite !dot_cons, IH. lra.
Qed.

Lemma learned_init_scale (dim : nat) (b : AttentionBase R) (n hh p : nat) :
  (hh < heads b)%nat -> (p < n)%nat ->
  nth p (nth hh (create_scaling (AttentionLearnedScaling_init dim b) (arange n)) []) 0
  = 1 / sqrt (INR dim / INR (heads b)).
Proof.
  intros Hh Hp. unfold create_scaling. simpl ls_alphas. simpl ls_betas.
  rewrite (nth_map2_lt _ (repeat 0 (heads b)) (repeat 0 (heads b)) 0 0 [])
    by (rewrite repeat_length; exact Hh).
  rewrite !nth_repeat. rewrite map_map. unfold arange. rewrite map_map.
  rewrite (nth_map_lt _ (seq 0 n) 0%nat 0) by (rewrite length_seq; exact Hp).
  cbn. f_equal. ring.
Qed.

Lemma learned_init_scale_row_length (dim : nat) (b : AttentionBase R) (n hh : nat) :
  (hh < heads b)%nat ->
  length (nth hh (create_scaling (AttentionLearnedScaling_init dim b) (arange n)) []) = n.
Proof.
  intros Hh. unfold create_scaling. simpl ls_alphas. simpl ls_betas.
  rewrite (nth_map2_lt _ (repeat 0 (heads b)) (repeat 0 (heads b)) 0 0 [])
    by (rewrite repeat_length; exact Hh).
  unfold arange. now rewrite !length_map, length_seq.
Qed.

(** With alphas = betas = 0 the scale is 1/sqrt(head_dim) wherever the
    logarithm of the position is a number, and from position 1 on the
    output is that of AttentionBase. *)
Lemma learned_init_rows_match_base (dim : nat) (b : AttentionBase R) (x : mat R) (i : nat) :
  well_shaped dim b x -> (1 <= i)%nat ->
  nth i (AttentionLearnedScaling_forward1 (AttentionLearnedScaling_init dim b) x) []
  = nth i (AttentionBase_forward1 b x) [].
Proof.
  intros (Hh & (dh & Hdh & Hdim) & (Hq & Hqb) & (Hk & Hkb) & (Hv & Hvb) & _ & Hx) Hi.
  unfold AttentionLearnedScaling_forward1, AttentionBase_forward1.
  change (ls_base (AttentionLearnedScaling_init dim b)) with b.
  unfold project_q, project_k, project_v, sdpa, scale_queries.
  rewrite !split_heads_linear, !imap_map_seq, !zip3_map_same.
  set (scales := create_scaling (AttentionLearnedScaling_init dim b) (arange (length x))).
  assert (Hrow : forall h', (h' < heads b)%nat ->
            length (nth (if (length scales =? 1)%nat then 0%nat else h') scales [])
            = length x
            /\ forall p, (p < length x)%nat ->
                 nth p (nth (if (length scales =? 1)%nat then 0%nat else h') scales []) 0
                 = 1 / sqrt (INR dim / INR (heads b))).
  { intros h' Hh'. unfold scales.
    destruct (length (create_scaling (AttentionLearnedScaling_init dim b)
                        (arange (length x))) =? 1)%nat;
      (split; [apply learned_init_scale_row_length | intros p Hp; apply learned_init_scale]);
      lia. }
  apply finish_row_ext. intros hh Hhh. destruct (Hrow hh Hhh) as [Hlen Hval].
  set (q := head_proj (to_q b) (heads b) hh x) in *.
  set (k := head_proj (to_k b) (heads b) hh x) in *.
  set (v := head_proj (to_v b) (heads b) hh x) in *.
  set (srow := nth (if (length scales =? 1)%nat then 0%nat else hh) scales []) in *.
  set (q' := map2 (fun qrow s => map (fun e => fmul e s) qrow) q srow).
  assert (Lq : length q = length x) by apply head_proj_length.
  assert (Lk : length k = length x) by apply head_proj_length.
  assert (Lq' : length q' = length x) by (unfold q'; rewrite map2_length; lia).
  split; [now rewrite !sdpa_head_length, Lq', Lq|].
  destruct (Nat.lt_ge_cases i (length x)) as [Hlt|Hge].
  - unfold sdpa_head.
    rewrite (nth_map_lt _ (sdpa_weights (Some (of_real 1.0)) q' k) [] [])
      by (unfold sdpa_weights; rewrite imap_length; lia).
    rewrite (nth_map_lt _ (sdpa_weights None q k) [] [])
      by (unfold sdpa_weights; rewrite imap_length; lia).
    f_equal. rewrite !sdpa_weights_row by lia.
    f_equal. f_equal. apply map_ext. intros kj.
    assert (Hq'i : nth i q' [] = map (fun e => e * (1 / sqrt (INR dim / INR (heads b))))
                                     (nth i q [])).
    { unfold q'. rewrite (nth_map2_lt _ q srow [] 0 []) by lia.
      now rewrite Hval by exact Hlt. }
    rewrite Hq'i, dot_scale_l.
    assert (Hc : ncols q = dh).
    { unfold ncols, q.
      apply (@head_proj_row_length _ _ dim dh (to_q b) (heads b) hh x 0); assumption || lia. }
    rewrite Hc. cbn.
    replace (INR dim / INR (heads b)) with (INR dh); [lra|].
    rewrite Hdim, mult_INR. field. apply not_0_INR. lia.
  - rewrite !nth_overflow; try reflexivity; rewrite sdpa_head_length; lia.
Qed.

(** *** Further properties in exact arithmetic *)

Lemma softmax_singleton (l : R) : softmax [l] = [1].
Proof.
  rewrite softmax_unfold. unfold shifted_exp. cbn.
  rewrite Rminus_diag, dt_exp_0. f_equal. field.
Qed.

Lemma dot_one_zeros (z : nat) (u : list R) : dot (1 :: repeat 0 z) u = nth 0 u 0.
Proof.
  destruct u as [|b u]; [reflexivity|].
  rewrite dot_cons, dot_zeros. simpl. lra.
Qed.

Lemma row_matmul_first (z : nat) (v : mat R) :
  (1 <= length v)%nat -> row_matmul (1 :: repeat 0 z) v = nth 0 v [].
Proof.
  intros Hv. unfold row_matmul, ncols.
  rewrite (map_ext _ (fun c => nth c (nth 0 v []) 0)).
  - apply map_nth_seq.
  - intros c. rewrite dot_one_zeros. unfold column.
    destruct v as [|v0 v]; [simpl in Hv; lia | reflexivity].
Qed.

(** The first position can only attend to itself: whatever the queries,
    keys and scale, row 0 of a head of sdpa is row 0 of the values. *)
Lemma sdpa_head_first_row (sc : option R) (q k v : mat R) :
  (1 <= length q)%nat -> (1 <= length k)%nat -> (1 <= length v)%nat ->
  nth 0 (sdpa_head sc q k v) [] = nth 0 v [].
Proof.
  intros Hq Hk Hv. unfold sdpa_head.
  rewrite (nth_map_lt _ (sdpa_weights sc q k) [] [])
    by (unfold sdpa_weights; rewrite imap_length; exact Hq).
  rewrite sdpa_weights_row by lia.
  destruct k as [|k0 k]; [simpl in Hk; lia|].
  simpl firstn. simpl map. rewrite softmax_singleton. simpl app.
  now apply row_matmul_first.
Qed.

(** X4.  At position 0 the output of AttentionBase is the output projection of
    the value projection of the first token; the query and key
    projections play no part. *)
Theorem base_first_position (dim : nat) (b : AttentionBase R) (x : mat R) :
  well_shaped dim b x -> (1 <= length x)%nat ->
  exists out,
    forward1 (Base b) x = Some out
    /\ nth 0 out [] = nth 0 (linear (to_out b) (linear (to_v b) x)) [].
Proof.
  intros (Hh & (dh & Hdh & Hdim) & _ & _ & (Hv & Hvb) & _ & _) Hn.
  simpl forward1. eexists. split; [reflexivity|].
  unfold AttentionBase_forward1, finish. rewrite base_heads.
  unfold linear at 1 2.
  apply nth_map_agree with (d := []).
  - unfold merge_heads. rewrite length_map, length_seq, first_head by exact Hh.
    now rewrite sdpa_head_length, head_proj_length, linear_length.
  - unfold merge_heads. rewrite first_head by exact Hh.
    rewrite sdpa_head_length, head_proj_length.
    rewrite (nth_map_lt _ (seq 0 (length x)) 0%nat []) by (rewrite length_seq; lia).
    rewrite seq_nth by lia. simpl Nat.add. rewrite map_map.
    rewrite (map_ext _ (fun hh => firstn dh (skipn (hh * dh) (nth 0 (linear (to_v b) x) [])))).
    + apply concat_slices.
      rewrite (@linear_row_length _ _ dim (to_v b) x 0 Hv Hvb) by lia. exact Hdim.
    + intros hh. rewrite sdpa_head_first_row by (rewrite head_proj_length; lia).
      unfold head_proj.
      rewrite (nth_map_lt _ (linear (to_v b) x) [] []) by (rewrite linear_length; lia).
      unfold ncols. rewrite (@linear_row_length _ _ dim (to_v b) x 0 Hv Hvb) by lia.
      now rewrite Hdim, head_width by exact Hh.
Qed.

(** X5.  "instead of applying scale to QK matrix, we can just mult the queries":
    row i of a head computed from queries multiplied by a per-position
    scale, with the built-in scale set to 1.0, is row i computed from the
    plain queries with the built-in scale set to the scale of position i. *)
Theorem prescaled_queries_scale_logits (q k v : mat R) (srow : list R) (i : nat) :
  (i < length q)%nat -> (i < length srow)%nat -> (i < length k)%nat ->
  nth i (sdpa_head (Some 1.0)
           (map2 (fun qrow s => map (fun e => fmul e s) qrow) q srow) k v) []
  = nth i (sdpa_head (Some (nth i srow 0)) q k v) [].
Proof.
  intros Hq Hs Hk.
  set (q' := map2 (fun qrow s => map (fun e => fmul e s) qrow) q srow).
  assert (Lq' : (i < length q')%nat) by (unfold q'; rewrite map2_length; lia).
  unfold sdpa_head.
  rewrite (nth_map_lt _ (sdpa_weights (Some 1.0) q' k) [] [])
    by (unfold sdpa_weights; rewrite imap_length; exact Lq').
  rewrite (nth_map_lt _ (sdpa_weights (Some (nth i srow 0)) q k) [] [])
    by (unfold sdpa_weights; rewrite imap_length; exact Hq).
  f_equal. rewrite !sdpa_weights_row by assumption.
  f_equal. f_equal. apply map_ext. intros kj.
  unfold q'. rewrite (nth_map2_lt _ q srow [] 0 []) by assumption.
  change (dot (map (fun e => e * nth i srow 0) (nth i q [])) kj * 1.0
          = dot (nth i q []) kj * nth i srow 0).
  rewrite dot_scale_l. lra.
Qed.

(** *** The scales away from position 0 *)

Lemma ln_le_mono (a b : R) : 0 < a -> a <= b -> ln a <= ln b.
Proof.
  intros Ha [Hlt | ->]; [left; now apply ln_increasing | lra].
Qed.

Lemma ln_INR_nonneg (p : nat) : (1 <= p)%nat -> 0 <= ln (INR p).
Proof.
  intros Hp. rewrite <- ln_1. apply ln_le_mono; [lra|].
  change 1 with (INR 1). now apply le_INR.
Qed.

Lemma yarn_scale_value (n p : nat) (head_dim : R) :
  (p < n)%nat ->
  nth p (nth 0 (yarn_scaling (arange n) head_dim) []) 0
  = (0.1 * ln (INR p) + 1) * ((0.1 * ln (INR p) + 1) * 1) / sqrt head_dim.
Proof.
  intros Hp. unfold yarn_scaling, arange. simpl nth. rewrite map_map.
  rewrite (nth_map_lt _ (seq 0 n) 0%nat 0) by (rewrite length_seq; exact Hp).
  now rewrite seq_nth by exact Hp.
Qed.

(** X6.  From position 1 on the YaRN scale starts at the standard
    1/sqrt(head_dim) and never decreases with the position. *)
Theorem yarn_scale_grows (n p p' : nat) (head_dim : R) :
  0 < head_dim -> (1 <= p)%nat -> (p <= p')%nat -> (p' < n)%nat ->
  let scale i := nth i (nth 0 (yarn_scaling (arange n) head_dim) []) 0 in
  scale 1%nat = 1 / sqrt head_dim /\
  1 / sqrt head_dim <= scale p /\
  scale p <= scale p'.
Proof.
  intros Hh Hp Hpp Hn scale. unfold scale.
  rewrite !yarn_scale_value by lia.
  pose proof (sqrt_lt_R0 head_dim Hh) as Hs.
  assert (Hi : 0 < / sqrt head_dim) by now apply Rinv_0_lt_compat.
  pose proof (ln_INR_nonneg Hp) as Hl.
  assert (Hl' : ln (INR p) <= ln (INR p')).
  { apply ln_le_mono; [apply lt_0_INR; lia | now apply le_INR]. }
  simpl INR. rewrite ln_1. unfold Rdiv. repeat split.
  - ring.
  - apply Rmult_le_compat_r; [lra|]. nra.
  - apply Rmult_le_compat_r; [lra|]. nra.
Qed.

(** At the position equal to base_seq_len the relative scale is
    sqrt(1/head_dim). *)
Lemma relative_scale_at_base (n base : nat) (head_dim : R) :
  (2 <= base)%nat -> (base < n)%nat ->
  nth base (nth 0 (relative_scaling (arange n) head_dim (INR base)) []) 0
  = sqrt (1 / head_dim).
Proof.
  intros Hb Hn. unfold relative_scaling, log_base, arange. simpl nth. rewrite !map_map.
  rewrite (nth_map_lt _ (seq 0 n) 0%nat 0) by (rewrite length_seq; exact Hn).
  rewrite seq_nth by exact Hn. simpl Nat.add.
  change (sqrt (ln (INR base) / ln (INR base) / head_dim) = sqrt (1 / head_dim)).
  assert (Hl : 0 < ln (INR base)).
  { rewrite <- ln_1. apply ln_increasing; [lra|].
    change 1 with (INR 1). apply lt_INR. lia. }
  f_equal. f_equal. field. lra.
Qed.

(** *** Positions at which a scaled variant is AttentionBase *)

Lemma well_shaped_head_width (dim dh : nat) (b : AttentionBase R) (x : mat R) :
  (1 <= heads b)%nat -> dim = (heads b * dh)%nat ->
  Forall (fun row => length row = dim) x -> (1 <= length x)%nat ->
  INR (ncols x) / INR (heads b) = INR dh.
Proof.
  intros Hh Hdim Hx Hn.
  assert (Hc : ncols x = dim).
  { unfold ncols. rewrite Forall_forall in Hx. apply Hx. apply nth_In. lia. }
  rewrite Hc, Hdim, mult_INR. field. apply not_0_INR. lia.
Qed.

(** Where every head's scale at position i is 1/sqrt(head_dim), row i of
    the output computed from pre-scaled queries is row i of AttentionBase. *)
Lemma calibrated_row_matches_base (dim dh : nat) (b : AttentionBase R) (scales : mat R)
    (x : mat R) (i : nat) :
  well_shaped dim b x -> dim = (heads b * dh)%nat -> (i < length x)%nat ->
  (forall hh, (hh < heads b)%nat ->
     let srow := nth (if (length scales =? 1)%nat then 0%nat else hh) scales [] in
     length srow = length x /\ nth i srow 0 = 1 / sqrt (INR dh)) ->
  nth i (finish b (sdpa (Some (of_real 1.0)) (scale_queries (project_q b x) scales)
                        (project_k b x) (project_v b x))) []
  = nth i (AttentionBase_forward1 b x) [].
Proof.
  intros (Hh & _ & (Hq & Hqb) & _ & _ & _ & Hx) Hdim Hi Hs.
  unfold AttentionBase_forward1. rewrite prescaled_heads, base_heads.
  apply finish_row_ext. intros hh Hhh. destruct (Hs hh Hhh) as [Hlen Hval].
  cbv zeta in Hlen, Hval.
  set (srow := nth (if (length scales =? 1)%nat then 0%nat else hh) scales []) in *.
  set (q := head_proj (to_q b) (heads b) hh x).
  set (k := head_proj (to_k b) (heads b) hh x).
  set (v := head_proj (to_v b) (heads b) hh x).
  assert (Lq : length q = length x) by apply head_proj_length.
  assert (Lk : length k = length x) by apply head_proj_length.
  split.
  - rewrite !sdpa_head_length, map2_length. lia.
  - set (q' := map2 (fun qrow s => map (fun e => fmul e s) qrow) q srow).
    assert (Lq' : length q' = length x) by (unfold q'; rewrite map2_length; lia).
    unfold sdpa_head.
    rewrite (nth_map_lt _ (sdpa_weights (Some (of_real 1.0)) q' k) [] [])
      by (unfold sdpa_weights; rewrite imap_length; lia).
    rewrite (nth_map_lt _ (sdpa_weights None q k) [] [])
      by (unfold sdpa_weights; rewrite imap_length; lia).
    f_equal. rewrite !sdpa_weights_row by lia.
    f_equal. f_equal. apply map_ext. intros kj.
    assert (Hq'i : nth i q' [] = map (fun e => e * (1 / sqrt (INR dh))) (nth i q [])).
    { unfold q'. rewrite (nth_map2_lt _ q srow [] 0 []) by lia. now rewrite Hval. }
    rewrite Hq'i, dot_scale_l.
    assert (Hc : ncols q = dh).
    { unfold ncols, q.
      apply (@head_proj_row_length _ _ dim dh (to_q b) (heads b) hh x 0); assumption || lia. }
    rewrite Hc. cbn. lra.
Qed.

(** X7.  The YaRN variant is calibrated at position 1: there log(1) = 0, the
    scale is 1/sqrt(head_dim), and the output row is that of
    AttentionBase. *)
Theorem yarn_matches_base_at_position_1 (dim : nat) (b : AttentionBase R) (x : mat R) :
  well_shaped dim b x -> (2 <= length x)%nat ->
  exists out out',
    forward1 (YarnScaling b) x = Some out /\ forward1 (Base b) x = Some out'
    /\ nth 1 out [] = nth 1 out' [].
Proof.
  intros Hw Hn.
  pose proof Hw as (Hh & (dh & Hdh & Hdim) & Hrest).
  assert (Hx : Forall (fun row => length row = dim) x) by apply Hrest.
  simpl forward1. eexists. eexists. split; [reflexivity|]. split; [reflexivity|].
  unfold AttentionYarnScaling_forward1. cbv zeta.
  rewrite (@well_shaped_head_width dim dh b x) by (assumption || lia).
  apply (@calibrated_row_matches_base dim dh); try assumption.
  intros hh _.
  change (length (yarn_scaling (arange (length x)) (INR dh)) =? 1)%nat with true.
  cbv iota zeta. split.
  - unfold yarn_scaling, arange. simpl nth. now rewrite !length_map, length_seq.
  - rewrite yarn_scale_value by lia. simpl INR. rewrite ln_1. unfold Rdiv. ring.
Qed.

(** X8.  The relative scaling is calibrated at the base length: at the position
    whose index is base_seq_len, log_base is 1 and the output row of
    AttentionRelativeScaling1 is that of AttentionBase. *)
Theorem relative_matches_base_at_base_len (dim base : nat) (b : AttentionBase R)
    (x : mat R) :
  well_shaped dim b x -> (2 <= base)%nat -> (base < length x)%nat ->
  exists out out',
    forward1 (RelativeScaling1 {| rs1_base := b; rs1_base_seq_len := INR base |}) x
    = Some out
    /\ forward1 (Base b) x = Some out'
    /\ nth base out [] = nth base out' [].
Proof.
  intros Hw Hb Hn.
  pose proof Hw as (Hh & (dh & Hdh & Hdim) & Hrest).
  assert (Hx : Forall (fun row => length row = dim) x) by apply Hrest.
  simpl forward1. eexists. eexists. split; [reflexivity|]. split; [reflexivity|].
  unfold AttentionRelativeScaling1_forward1. cbv zeta.
  simpl rs1_base. simpl rs1_base_seq_len.
  rewrite (@well_shaped_head_width dim dh b x) by (assumption || lia).
  apply (@calibrated_row_matches_base dim dh); try assumption.
  intros hh _.
  change (length (relative_scaling (arange (length x)) (INR dh) (INR base)) =? 1)%nat
    with true.
  cbv iota zeta. split.
  - unfold relative_scaling, log_base, arange. simpl nth. now rewrite !length_map, length_seq.
  - rewrite relative_scale_at_base by assumption.
    assert (Hd : 0 < INR dh) by (apply lt_0_INR; lia).
    unfold Rdiv. rewrite !Rmult_1_l. apply sqrt_inv.
Qed.

(** *** The manual softmax with an extra term *)

Lemma Rmax_plus_r (a b c : R) : Rmax (a + c) (b + c) = Rmax a b + c.
Proof.
  unfold Rmax. destruct (Rle_dec (a + c) (b + c)), (Rle_dec a b); lra.
Qed.

Lemma row_max_shift (c : R) (row : list R) :
  row <> [] -> rowmax (map (fun x => x + c) row) = rowmax row + c.
Proof.
  destruct row as [|x xs]; [congruence|]. intros _.
  change (fold_right Rmax (x + c) (map (fun x => x + c) xs) = fold_right Rmax x xs + c).
  induction xs as [|y ys IH]; [reflexivity|].
  simpl. rewrite IH. apply Rmax_plus_r.
Qed.

Lemma shifted_exp_shift (c : R) (row : list R) :
  shifted_exp d (map (fun x => x + c) row) = shifted_exp d row.
Proof.
  destruct row as [|x xs]; [reflexivity|].
  unfold shifted_exp. rewrite row_max_shift by discriminate.
  rewrite map_map. apply map_ext. intros y. apply (f_equal (dt_exp d)).
  unfold ops. lra.
Qed.

(** X9.  Because the row maximum is subtracted before the term is added to
    the denominator, the attention of AttentionSoftmaxPlusOne does not
    change when a constant is added to every logit of the similarity
    matrix. *)
Theorem plus_one_shift_invariant (denom_bias_h c : R) (sim : mat R) :
  softmax_plus_one_attn denom_bias_h (map (map (fun s => s + c)) sim)
  = softmax_plus_one_attn denom_bias_h sim.
Proof.
  assert (Hrow : forall row,
             softmax_plus_row (fexp denom_bias_h) (map (fun s => s + c) row)
             = softmax_plus_row (fexp denom_bias_h) row).
  { intros row. destruct row as [|r0 row]; [reflexivity|].
    rewrite !manual_row_returns by discriminate.
    rewrite !plus_row_unfold. now rewrite shifted_exp_shift. }
  unfold softmax_plus_one_attn. destruct sim as [|s0 sim]; [reflexivity|].
  change (map (map (fun s => s + c)) (s0 :: sim))
    with (map (fun s => s + c) s0 :: map (map (fun s => s + c)) sim).
  cbv iota. f_equal. rewrite <- map_cons with (f := map (fun s => s + c)).
  rewrite map_map. apply map_ext. exact Hrow.
Qed.

Lemma shifted_exp_le_1 (row : list R) (j : nat) :
  monotone_exp d -> nth j (shifted_exp d row) 0 <= 1.
Proof.
  intros Hm. destruct (Nat.lt_ge_cases j (length row)) as [Hj|Hj].
  - rewrite shifted_exp_nth by exact Hj. rewrite <- (dt_exp_0 d). apply Hm.
    assert (nth j row 0 <= rowmax row) by (apply row_max_ge; now apply nth_In).
    lra.
  - rewrite nth_overflow; [lra|]. unfold shifted_exp. now rewrite length_map.
Qed.

Lemma plus_row_at_most_half (row : list R) (j : nat) :
  monotone_exp d -> nth j (plus_row d 1 row) 0 <= 1 / 2.
Proof.
  intros Hm. destruct (Nat.lt_ge_cases j (length row)) as [Hj|Hj].
  - rewrite plus_row_entry by exact Hj.
    assert (Hne : row <> []) by (destruct row; [simpl in Hj; lia | discriminate]).
    pose proof (shifted_exp_sum_ge_1 Hne) as HS.
    pose proof (shifted_exp_entry_nonneg row j) as He0.
    pose proof (shifted_exp_le_1 row j Hm) as He1.
    set (S := sum (shifted_exp d row)) in *. set (e := nth j (shifted_exp d row) 0) in *.
    apply Rmult_le_reg_r with (r := S + 1); [lra|].
    unfold Rdiv. rewrite Rmult_assoc, Rinv_l by lra. lra.
  - rewrite nth_overflow; [lra|].
    rewrite plus_row_unfold. unfold shifted_exp. now rewrite !length_map.
Qed.

(** X10.  With denom_bias = 0 the manual softmax returns on every
    similarity matrix in which torch.max finds a value in every row, and
    no position ever receives more than half of the attention. *)
Theorem plus_one_weight_at_most_half (base : AttentionBase R) (hh : nat) (sim : mat R) :
  sim <> [] -> Forall (fun r => r <> []) sim -> monotone_exp d ->
  let m := AttentionSoftmaxPlusOne_init base in
  exists attn,
    softmax_plus_one_attn (nth hh (p1_denom_bias m) fzero) sim = Some attn
    /\ forall i j, nth j (nth i attn []) 0 <= 1 / 2.
Proof.
  intros Hne Hrows Hm m. rewrite plus_one_attn_returns by assumption.
  eexists. split; [reflexivity|]. intros i j.
  destruct (Nat.lt_ge_cases i (length sim)) as [Hi|Hi].
  - rewrite (nth_imap _ sim [] [] Hi). unfold m.
    change (p1_denom_bias (AttentionSoftmaxPlusOne_init base))
      with (repeat (@fzero R ops) (heads base)).
    rewrite nth_repeat.
    change (fexp (@fzero R ops)) with (dt_exp d 0). rewrite dt_exp_0.
    now apply plus_row_at_most_half.
  - rewrite (nth_overflow (imap _ sim)) by (rewrite imap_length; exact Hi).
    destruct j; simpl; lra.
Qed.

(** *** The range of the adaptive inverse temperature *)

Lemma quartic_le_5_2 (H : R) : quartic H <= 2.5.
Proof.
  unfold quartic.
  pose proof (pow2_ge_0 (H * H - 6.5 * H + 8.32)) as H1.
  pose proof (pow2_ge_0 (H - 3.78)) as H2.
  simpl pow in *. nra.
Qed.

Lemma quartic_le_1_low (H : R) : 0 <= H -> H <= 0.8 -> quartic H <= 1.
Proof.
  intros H0 H1. unfold quartic. simpl pow.
  assert (Hc : H * H * H <= 0.512) by nra.
  assert (Hq : 0 <= H * H * H * H) by (repeat apply Rmult_le_pos; lra).
  nra.
Qed.

Lemma quartic_le_1_high (H : R) : 6 <= H -> quartic H <= 1.
Proof.
  intros H6. unfold quartic. simpl pow.
  set (t := H - 6). assert (Ht : 0 <= t) by (unfold t; lra).
  replace H with (6 + t) by (unfold t; lra).
  assert (H2 : 0 <= t * t) by nra.
  assert (H3 : 0 <= t * t * t) by nra.
  assert (H4 : 0 <= t * t * t * t) by nra.
  nra.
Qed.

(** X11.  The inverse temperature always lies between 1 and 2.5, and it is 1,
    so that the output is the plain softmax, whenever the entropy of the
    row is at most 0.8 or at least 6. *)
Theorem adaptive_beta_range (row : list R) :
  let H := shannon_entropy (softmax row) in
  1 <= adaptive_beta row <= 2.5 /\
  (H <= 0.8 \/ 6 <= H ->
   adaptive_beta row = 1 /\ adaptive_temperature_softmax_row row = softmax row).
Proof.
  intros H.
  assert (Hcase : H <= 0.5 \/ 0.5 < H) by (destruct (Rle_or_lt H 0.5); tauto).
  assert (Hone : adaptive_beta row = 1 ->
                 adaptive_temperature_softmax_row row = softmax row).
  { intros E. unfold adaptive_temperature_softmax_row. rewrite E.
    change (softmax (map (fun x => x * 1) row) = softmax row). now rewrite map_mul_one. }
  split.
  - split; [apply adaptive_beta_ge_1|].
    destruct Hcase as [Hle|Hlt].
    + rewrite adaptive_beta_low by exact Hle. lra.
    + rewrite adaptive_beta_high by exact Hlt.
      apply Rmax_lub; [apply quartic_le_5_2 | lra].
  - intros Hr.
    assert (E : adaptive_beta row = 1).
    { destruct Hcase as [Hle|Hlt]; [now apply adaptive_beta_low|].
      rewrite adaptive_beta_high by exact Hlt. apply Rmax_right.
      destruct Hr as [Hr|Hr]; [apply quartic_le_1_low; fold H; lra
                              | apply quartic_le_1_high; exact Hr]. }
    split; [exact E | now apply Hone].
Qed.

(** *** Sharpening *)

Lemma sum_map_le (f g : R -> R) (row : list R) :
  (forall x, In x row -> f x <= g x) -> sum (map f row) <= sum (map g row).
Proof.
  induction row as [|x row IH]; intros Hfg.
  - simpl map. lra.
  - simpl map. rewrite !sum_cons.
    assert (f x <= g x) by (apply Hfg; now left).
    assert (sum (map f row) <= sum (map g row)) by (apply IH; intros y Hy; apply Hfg; now right).
    lra.
Qed.

Lemma Rmax_scale_r (a b c : R) : 0 <= c -> Rmax (a * c) (b * c) = Rmax a b * c.
Proof.
  intros Hc. unfold Rmax. destruct (Rle_dec (a * c) (b * c)), (Rle_dec a b); nra.
Qed.

Lemma row_max_scale (c : R) (row : list R) :
  0 <= c -> row <> [] -> rowmax (map (fun x => x * c) row) = rowmax row * c.
Proof.
  intros Hc. destruct row as [|x xs]; [congruence|]. intros _.
  change (fold_right Rmax (x * c) (map (fun x => x * c) xs) = fold_right Rmax x xs * c).
  induction xs as [|y ys IH]; [reflexivity|].
  simpl. rewrite IH. now apply Rmax_scale_r.
Qed.

(** X12.  "never increase entropy": the probability of the largest logit under
    adaptive_temperature_softmax is at least its probability under the
    plain softmax. *)
Theorem adaptive_keeps_top (row : list R) (j : nat) :
  monotone_exp d -> (j < length row)%nat -> nth j row 0 = rowmax row ->
  nth j (softmax row) 0 <= nth j (adaptive_temperature_softmax_row row) 0.
Proof.
  intros Hm Hj Htop.
  assert (Hne : row <> []) by (destruct row; [simpl in Hj; lia | discriminate]).
  pose proof (adaptive_beta_ge_1 row) as Hb.
  unfold adaptive_temperature_softmax_row.
  set (beta := adaptive_beta row) in *.
  change (nth j (softmax row) 0 <= nth j (softmax (map (fun x => x * beta) row)) 0).
  rewrite !softmax_entry by (rewrite ?length_map; exact Hj).
  rewrite !shifted_exp_nth by (rewrite ?length_map; exact Hj).
  rewrite (nth_map_lt (fun x => x * beta) row 0 0 Hj).
  rewrite row_max_scale by (lra || exact Hne).
  rewrite Htop, !Rminus_diag, dt_exp_0.
  assert (HS' : 1 <= sum (shifted_exp d (map (fun x => x * beta) row))).
  { apply shifted_exp_sum_ge_1. destruct row; [congruence | discriminate]. }
  assert (Hle : sum (shifted_exp d (map (fun x => x * beta) row))
                <= sum (shifted_exp d row)).
  { unfold shifted_exp. rewrite row_max_scale by (lra || exact Hne). rewrite map_map.
    apply sum_map_le. intros x Hx. apply Hm.
    assert (x <= rowmax row) by now apply row_max_ge.
    unfold ops in *. nra. }
  unfold Rdiv. rewrite !Rmult_1_l. apply Rinv_le_contravar; lra.
Qed.

End WithDtype.



(** C4 fails as stated.  With the float32 dtype, in row 0 of the masked
    similarity of two tokens (queries and keys 1) the masked entry has
    an exponential that underflows to 0: its weight is 0 under the
    manual softmax and 0 under the plain softmax, not strictly
    smaller. *)
Lemma masked_weight_not_smaller :
  let sim := masked_similarity (ops := Exact.scalar float32_dtype) 2 [[1]; [1]] [[1]; [1]] in
  let m := AttentionSoftmaxPlusOne_init (ops := Exact.scalar float32_dtype)
             (base_1 (ops := Exact.scalar float32_dtype) 1 1 1 1) in
  exists attn,
    softmax_plus_one_attn (ops := Exact.scalar float32_dtype)
      (nth 0 (p1_denom_bias m) 0) sim = Some attn
    /\ nth 1 (nth 0 attn []) 0 = 0
    /\ nth 1 (softmax (ops := Exact.scalar float32_dtype) (nth 0 sim [])) 0 = 0
    /\ ~ nth 1 (nth 0 attn []) 0
          < nth 1 (softmax (ops := Exact.scalar float32_dtype) (nth 0 sim [])) 0.
Proof.
  intros sim m.
  assert (Hmax : Rmax (- float32_max) ((1 * 1 + 0) / sqrt 1) = (1 * 1 + 0) / sqrt 1).
  { apply Rmax_right. rewrite sqrt_1. unfold float32_max. lra. }
  assert (Hexp : underflow_exp (- float32_max - (1 * 1 + 0) / sqrt 1) = 0).
  { unfold underflow_exp. rewrite sqrt_1.
    destruct (Rle_dec (- float32_max - (1 * 1 + 0) / 1) (-104)) as [_|Hn];
      [reflexivity|]. exfalso. apply Hn. unfold float32_max. lra. }
  eexists. split; [reflexivity|].
  assert (Hz : forall D, underflow_exp (- float32_max - (1 * 1 + 0) / sqrt 1) / D = 0).
  { intros D. rewrite Hexp. unfold Rdiv. ring. }
  cbn. change (dt_max float32_dtype) with float32_max. rewrite !Hmax, !Hz.
  repeat split; lra.
Qed.

Lemma softmax_plus_one_shrinks_witness :
  exists attn,
    softmax_plus_one_attn (ops := Exact.scalar real_dtype)
      (nth 0 (p1_denom_bias
                (AttentionSoftmaxPlusOne_init (ops := Exact.scalar real_dtype)
                   (base_1 (ops := Exact.scalar real_dtype) 1 1 1 1))) 0)
      [[0; 1]] = Some attn
    /\ length attn = length [[0; 1]].
Proof.
  destruct (proj1 (@softmax_plus_one_shrinks real_dtype
                     (base_1 (ops := Exact.scalar real_dtype) 1 1 1 1) 0 [[0; 1]]
                     ltac:(discriminate) ltac:(repeat constructor; discriminate)))
    as (attn & E & L & _).
  exists attn. split; [exact E | exact L].
Defined.

Lemma adaptive_temperature_softmax_distribution_witness :
  length (adaptive_temperature_softmax (ops := Exact.scalar real_dtype) [[0; 0]])
  = length [[0; 0]].
Proof.
  refine (proj1 (@adaptive_temperature_softmax_distribution real_dtype [[0; 0]] _)).
  repeat constructor. discriminate.
Defined.

Lemma create_scaling_formula_witness :
  nth 1 (nth 0 (create_scaling (ops := Exact.scalar real_dtype)
                  {| ls_base := base_1 (ops := Exact.scalar real_dtype) 1 1 1 1;
                     ls_alphas := [0];
                     ls_betas := [0];
                     ls_head_dim := INR 8 / INR 1;
                     ls_base_scale := sqrt (INR 8 / INR 1) |}
                  (arange (ops := Exact.scalar real_dtype) 2)) []) 0
  = 1 / ((1 + 0 * ln (INR 1) + 0) * sqrt (INR 8 / INR 1)).
Proof.
  refine (proj2 (proj2 (@create_scaling_formula real_dtype 8
                          (base_1 (ops := Exact.scalar real_dtype) 1 1 1 1)
                          [0] [0] 2 0 1 _ _ _))); simpl; lia.
Defined.

Lemma relative_scaling_position_1_witness :
  nth 1 (nth 0 (rs1_scales (ops := Exact.scalar real_dtype)
                  {| rs1_base := base_1 (ops := Exact.scalar real_dtype) 1 1 1 1;
                     rs1_base_seq_len := 2048 |}
                  [[1]; [1]]) []) 0 = 0.
Proof.
  refine (proj1 (proj2 (proj1 (@relative_scaling_position_1 real_dtype real_backend [[1]; [1]] 0 _)
                          {| rs1_base := base_1 (ops := Exact.scalar real_dtype) 1 1 1 1;
                             rs1_base_seq_len := 2048 |} _))); simpl; lia.
Defined.

Lemma real_exp_monotone : monotone_exp real_dtype.
Proof.
  intros s t [Hlt | ->]; [left; now apply exp_increasing | apply Rle_refl].
Qed.

Lemma base_first_position_witness :
  exists out,
    forward1 (ops := Exact.scalar real_dtype)
      (Base (base_1 (ops := Exact.scalar real_dtype) 1 1 1 1)) [[1]; [2]] = Some out
    /\ nth 0 out []
       = nth 0 (linear (ops := Exact.scalar real_dtype)
                  (to_out (base_1 (ops := Exact.scalar real_dtype) 1 1 1 1))
                  (linear (ops := Exact.scalar real_dtype)
                     (to_v (base_1 (ops := Exact.scalar real_dtype) 1 1 1 1))
                     [[1]; [2]])) [].
Proof.
  apply (@base_first_position real_dtype real_backend 1
           (base_1 (ops := Exact.scalar real_dtype) 1 1 1 1) [[1]; [2]]).
  - apply well_shaped_base_1. repeat constructor.
  - simpl. lia.
Defined.

Lemma prescaled_queries_scale_logits_witness :
  nth 1 (sdpa_head (ops := Exact.scalar real_dtype) (Some 1.0)
           (map2 (fun qrow s => map (fun e => e * s) qrow) [[1]; [2]] [3; 4])
           [[5]; [6]] [[7]; [8]]) []
  = nth 1 (sdpa_head (ops := Exact.scalar real_dtype) (Some (nth 1 [3; 4] 0))
             [[1]; [2]] [[5]; [6]] [[7]; [8]]) [].
Proof.
  apply (@prescaled_queries_scale_logits real_dtype real_backend [[1]; [2]] [[5]; [6]] [[7]; [8]]
           [3; 4] 1%nat); simpl; lia.
Defined.

Lemma yarn_scale_grows_witness :
  nth 1 (nth 0 (yarn_scaling (ops := Exact.scalar real_dtype)
                  (arange (ops := Exact.scalar real_dtype) 3) 4) []) 0
  = 1 / sqrt 4.
Proof.
  refine (proj1 (@yarn_scale_grows real_dtype 3 1 2 4 _ _ _ _)); lra || lia.
Defined.

Lemma yarn_matches_base_at_position_1_witness :
  exists out out',
    forward1 (ops := Exact.scalar real_dtype)
      (YarnScaling (base_1 (ops := Exact.scalar real_dtype) 1 1 1 1)) [[1]; [2]] = Some out
    /\ forward1 (ops := Exact.scalar real_dtype)
         (Base (base_1 (ops := Exact.scalar real_dtype) 1 1 1 1)) [[1]; [2]] = Some out'
    /\ nth 1 out [] = nth 1 out' [].
Proof.
  apply (@yarn_matches_base_at_position_1 real_dtype real_backend 1
           (base_1 (ops := Exact.scalar real_dtype) 1 1 1 1) [[1]; [2]]).
  - apply well_shaped_base_1. repeat constructor.
  - simpl. lia.
Defined.

Lemma relative_matches_base_at_base_len_witness :
  exists out out',
    forward1 (ops := Exact.scalar real_dtype)
      (RelativeScaling1
         {| rs1_base := base_1 (ops := Exact.scalar real_dtype) 1 1 1 1;
            rs1_base_seq_len := INR 2 |}) [[1]; [2]; [3]] = Some out
    /\ forward1 (ops := Exact.scalar real_dtype)
         (Base (base_1 (ops := Exact.scalar real_dtype) 1 1 1 1)) [[1]; [2]; [3]]
       = Some out'
    /\ nth 2 out [] = nth 2 out' [].
Proof.
  apply (@relative_matches_base_at_base_len real_dtype real_backend 1 2
           (base_1 (ops := Exact.scalar real_dtype) 1 1 1 1) [[1]; [2]; [3]]).
  - apply well_shaped_base_1. repeat constructor.
  - lia.
  - simpl. lia.
Defined.

Lemma plus_one_weight_at_most_half_witness :
  exists attn,
    softmax_plus_one_attn (ops := Exact.scalar real_dtype)
      (nth 0 (p1_denom_bias
                (AttentionSoftmaxPlusOne_init (ops := Exact.scalar real_dtype)
                   (base_1 (ops := Exact.scalar real_dtype) 1 1 1 1))) 0)
      [[0; 1]] = Some attn
    /\ forall i j, nth j (nth i attn []) 0 <= 1 / 2.
Proof.
  apply (@plus_one_weight_at_most_half real_dtype
           (base_1 (ops := Exact.scalar real_dtype) 1 1 1 1) 0 [[0; 1]]).
  - discriminate.
  - repeat constructor. discriminate.
  - exact real_exp_monotone.
Defined.

Lemma adaptive_keeps_top_witness :
  nth 1 (softmax (ops := Exact.scalar real_dtype) [0; 1]) 0
  <= nth 1 (adaptive_temperature_softmax_row (ops := Exact.scalar real_dtype) [0; 1]) 0.
Proof.
  apply (@adaptive_keeps_top real_dtype [0; 1] 1).
  - exact real_exp_monotone.
  - simpl. lia.
  - change (1 = Rmax 1 0). unfold Rmax. destruct (Rle_dec 1 0); [lra | reflexivity].
Defined.

End ExactTheory.


(** ** IEEE special values *)

Module IEEETheory.
Import IEEE.
Section WithDtype.

Variable d : Dtype.

#[local] Instance ops : Scalar xfloat := IEEE.scalar d.

Context {backend : Backend xfloat}.

Lemma Reqb_true (a : R) : Reqb a a = true.
Proof. unfold Reqb. destruct (Req_dec_T a a); [reflexivity | congruence]. Qed.

Lemma Reqb_false (a b : R) : a <> b -> Reqb a b = false.
Proof. intros H. unfold Reqb. destruct (Req_dec_T a b); [contradiction | reflexivity]. Qed.

Lemma Rltb_true (a b : R) : a < b -> Rltb a b = true.
Proof. intros H. unfold Rltb. destruct (Rlt_dec a b); [reflexivity | contradiction]. Qed.

Lemma Rltb_false (a b : R) : b <= a -> Rltb a b = false.
Proof. intros H. unfold Rltb. destruct (Rlt_dec a b); [lra | reflexivity]. Qed.

Lemma Rgtb_true (a b : R) : b < a -> Rgtb a b = true.
Proof. intros H. unfold Rgtb. destruct (Rgt_dec a b); [reflexivity | contradiction]. Qed.

Lemma Rgtb_false (a b : R) : a <= b -> Rgtb a b = false.
Proof. intros H. unfold Rgtb. destruct (Rgt_dec a b) as [Hgt|]; [|reflexivity].
  unfold Rgt in Hgt. lra. Qed.

Lemma regular_fin (r : R) : regular (XFin r) = true.
Proof. cbn. apply Rgtb_true. lra. Qed.

Lemma regular_inf (s : bool) : regular (XInf s) = false.
Proof. destruct s; reflexivity. Qed.

Lemma regular_nan : regular XNaN = false.
Proof. reflexivity. Qed.

(** *** Propagation of non-finite values *)

Lemma xmul_nan_l (b : xfloat) : xmul XNaN b = XNaN.
Proof. reflexivity. Qed.

Lemma xmul_nan_r (a : xfloat) : xmul a XNaN = XNaN.
Proof. destruct a; reflexivity. Qed.

Lemma xadd_nan_l (b : xfloat) : xadd XNaN b = XNaN.
Proof. reflexivity. Qed.

Lemma xadd_nan_r (a : xfloat) : xadd a XNaN = XNaN.
Proof. destruct a; reflexivity. Qed.

Lemma xdiv_nan_r (a : xfloat) : xdiv a XNaN = XNaN.
Proof. destruct a; reflexivity. Qed.

Lemma xmul_nonfinite_l (a b : xfloat) : ~ is_finite a -> ~ is_finite (xmul a b).
Proof.
  destruct a as [|s|r]; destruct b as [|s'|r']; simpl; try tauto.
  destruct (Reqb r' 0); simpl; tauto.
Qed.

Lemma xmul_nonfinite_r (a b : xfloat) : ~ is_finite b -> ~ is_finite (xmul a b).
Proof.
  destruct a as [|s|r]; destruct b as [|s'|r']; simpl; try tauto.
  destruct (Reqb r 0); simpl; tauto.
Qed.

Lemma xadd_nonfinite_l (a b : xfloat) : ~ is_finite a -> ~ is_finite (xadd a b).
Proof.
  destruct a as [|s|r]; destruct b as [|s'|r']; simpl; try tauto.
  destruct (Bool.eqb s s'); simpl; tauto.
Qed.

Lemma xsub_self_nonfinite (a : xfloat) : ~ is_finite a -> xsub a a = XNaN.
Proof.
  destruct a as [|s|r]; intros H.
  - reflexivity.
  - destruct s; reflexivity.
  - exfalso. apply H. exact I.
Qed.

Lemma xsum_cons (a : xfloat) (l : list xfloat) : sum (a :: l) = xadd a (sum l).
Proof. reflexivity. Qed.

Lemma xdot_cons (a b : xfloat) (u v : list xfloat) :
  dot (a :: u) (b :: v) = xadd (xmul a b) (dot u v).
Proof. reflexivity. Qed.

Lemma dot_nonfinite (u v : list xfloat) :
  Forall (fun e => ~ is_finite e) u -> u <> [] -> v <> [] -> ~ is_finite (dot u v).
Proof.
  intros Hu Hne Hv. destruct u as [|a u]; [congruence|]. destruct v as [|b v]; [congruence|].
  rewrite xdot_cons. apply xadd_nonfinite_l. apply xmul_nonfinite_l.
  now inversion Hu.
Qed.

Lemma dot_nan (u v : list xfloat) :
  Forall (fun e => e = XNaN) u -> u <> [] -> v <> [] -> dot u v = XNaN.
Proof.
  intros Hu Hne Hv. destruct u as [|a u]; [congruence|]. destruct v as [|b v]; [congruence|].
  rewrite xdot_cons. inversion Hu as [|? ? Ha _]; subst. reflexivity.
Qed.

(** Evaluation on concrete inputs: unfold, then decide the comparisons. *)
Ltac xeval :=
  repeat first [ rewrite Rdiv_1_r
               | rewrite sqrt_1
               | rewrite xadd_nan_l
               | rewrite xmul_nan_l
               | rewrite Reqb_true
               | rewrite Reqb_false by lra
               | rewrite Rltb_false by lra
               | rewrite Rltb_true by lra
               | rewrite Rgtb_true by lra
               | rewrite Rgtb_false by lra
               | progress cbn ].

(** *** The scales at position 0 *)

Lemma xlog_zero : xlog (XFin 0) = XInf true.
Proof.
  unfold xlog. rewrite Rltb_false by lra. now rewrite Reqb_true.
Qed.

Lemma xlog_pos (r : R) : 0 < r -> xlog (XFin r) = XFin (ln r).
Proof.
  intros Hr. unfold xlog. rewrite Rltb_false by lra. rewrite Reqb_false by lra. reflexivity.
Qed.

Lemma arange_0 (n : nat) : (1 <= n)%nat -> nth 0 (arange n) fzero = XFin 0.
Proof. intros Hn. destruct n as [|n]; [lia|]. reflexivity. Qed.





Lemma row_matmul_nan (n : nat) (v : mat xfloat) :
  (1 <= n)%nat -> (1 <= length v)%nat ->
  row_matmul (repeat XNaN n) v = repeat XNaN (ncols v).
Proof.
  intros Hn Hv. unfold row_matmul.
  rewrite map_const_repeat with (c := XNaN); [now rewrite length_seq|].
  intros c _. apply dot_nan.
  - apply Forall_forall. intros e He. now apply repeat_spec in He.
  - destruct n; [lia | discriminate].
  - unfold column. destruct v; [simpl in Hv; lia | discriminate].
Qed.

Lemma scaled_row0_nonfinite (qh : mat xfloat) (srow : list xfloat) :
  (1 <= length qh)%nat -> (1 <= length srow)%nat ->
  ~ is_finite (nth 0 srow fzero) ->
  let q := map2 (fun qrow s => map (fun e => fmul e s) qrow) qh srow in
  Forall (fun e => ~ is_finite e) (nth 0 q []) /\
  length (nth 0 q []) = length (nth 0 qh []) /\
  length q = Nat.min (length qh) (length srow).
Proof.
  intros Hq Hs Hnf q.
  assert (Hq0 : nth 0 q [] = map (fun e => xmul e (nth 0 srow fzero)) (nth 0 qh [])).
  { unfold q. now rewrite (nth_map2_lt _ qh srow [] fzero []) by lia. }
  rewrite Hq0. repeat split.
  - apply Forall_forall. intros e He. apply in_map_iff in He.
    destruct He as [e' [<- _]]. now apply xmul_nonfinite_r.
  - apply length_map.
  - unfold q. apply map2_length.
Qed.

Lemma add_bias_nan (n : nat) (bo : list xfloat) :
  length bo = n -> map2 fadd (repeat XNaN n) bo = repeat XNaN n.
Proof.
  revert bo. induction n as [|n IH]; intros bo Hbo; [reflexivity|].
  destruct bo as [|b0 bo]; [discriminate|].
  change (map2 fadd (repeat XNaN (S n)) (b0 :: bo))
    with (xadd XNaN b0 :: map2 fadd (repeat XNaN n) bo).
  rewrite IH by (simpl in Hbo; lia). reflexivity.
Qed.

Lemma output_row_nan (dim : nat) (l : Linear xfloat) (merged : mat xfloat) :
  (1 <= dim)%nat -> linear_shape dim l ->
  (exists bo, bias l = Some bo /\ length bo = dim) ->
  (1 <= length merged)%nat -> nth 0 merged [] = repeat XNaN dim ->
  nth 0 (linear l merged) [] = repeat XNaN dim.
Proof.
  intros Hd [Hw Hrows] [bo [Hb Hbo]] Hm Hrow. unfold linear.
  rewrite (nth_map_lt _ merged [] [] Hm). rewrite Hb, Hrow.
  rewrite map_const_repeat with (c := XNaN).
  - rewrite Hw. apply add_bias_nan. exact Hbo.
  - intros w Hin. rewrite Forall_forall in Hrows. specialize (Hrows w Hin).
    apply dot_nan.
    + apply Forall_forall. intros e He. now apply repeat_spec in He.
    + destruct dim; [lia | discriminate].
    + destruct w; [simpl in Hrows; lia | discriminate].
Qed.

(** *** The three logarithmic scalings at position 0 *)






(** The query row of position 0 that sdpa receives when every head
    multiplies it by a non-finite scale. *)
Lemma scaled_query_row0 (dim : nat) (b : AttentionBase xfloat) (scales : mat xfloat)
    (x : mat xfloat) :
  well_shaped dim b x -> (1 <= length x)%nat ->
  (forall hh, (hh < heads b)%nat ->
     let srow := nth (if (length scales =? 1)%nat then 0%nat else hh) scales [] in
     length srow = length x /\ ~ is_finite (nth 0 srow fzero)) ->
  forall hh, (hh < heads b)%nat ->
    nth 0 (nth hh (scale_queries (project_q b x) scales) []) [] <> []
    /\ Forall (fun e => ~ is_finite e)
              (nth 0 (nth hh (scale_queries (project_q b x) scales) []) []).
Proof.
  intros (Hh & (dh & Hdh & Hdim) & (Hq & Hqb) & _) Hn Hs hh Hhh.
  rewrite scaled_queries_head by exact Hhh.
  destruct (Hs hh Hhh) as [Hlen Hnf]. cbv zeta in Hlen, Hnf.
  destruct (@scaled_row0_nonfinite (head_proj (to_q b) (heads b) hh x)
              (nth (if (length scales =? 1)%nat then 0%nat else hh) scales []))
    as (Hf & Hl0 & _); try (rewrite ?head_proj_length; lia); [exact Hnf|].
  rewrite (@head_proj_row_length _ _ dim dh (to_q b) (heads b) hh x 0) in Hl0
    by (assumption || lia).
  split; [|exact Hf].
  intros E. rewrite E in Hl0. simpl in Hl0. lia.
Qed.




(** *** Single rows under the fused kernel *)

Lemma fused_row_inf :
  causal_softmax (backend := fused_backend d) 0 [XInf false] = [XNaN].
Proof.
  reflexivity.
Qed.

Lemma fused_row_nan :
  causal_softmax (backend := fused_backend d) 0 [XNaN] = [XFin 0].
Proof. reflexivity. Qed.


(** *** The manual mask value *)

(** C7.  In each head of the three manually masked variants, every entry
    above the diagonal of the similarity matrix that enters the softmax
    is the finite value -finfo.max, not -inf; and if every entry of the
    scaled similarity is finite, so is every entry of the masked one. *)
Theorem masked_entries_finite (b : AttentionBase xfloat) (x : mat xfloat) (hh : nat) :
  let q := head_proj (to_q b) (heads b) hh x in
  let k := head_proj (to_k b) (heads b) hh x in
  let sim := masked_similarity (length x) q k in
  (forall i j, (i < length x)%nat -> (j < length x)%nat -> (i < j)%nat ->
     nth j (nth i sim []) fzero = XFin (- dt_max d)
     /\ is_finite (nth j (nth i sim []) fzero)
     /\ nth j (nth i sim []) fzero <> XInf true) /\
  (Forall (Forall is_finite) (scaled_similarity q k) -> Forall (Forall is_finite) sim).
Proof.
  intros q k sim. split.
  - intros i j Hi Hj Hij.
    assert (E : nth j (nth i sim []) fzero = XFin (- dt_max d)).
    { unfold sim. rewrite <- (head_proj_length (to_k b) (heads b) hh x) at 1.
      fold k. rewrite masked_similarity_row
        by (unfold q, k; rewrite head_proj_length; exact Hi).
      rewrite app_nth2 by (rewrite length_map, length_firstn; unfold k;
                           rewrite head_proj_length; lia).
      rewrite length_map, length_firstn. unfold k. rewrite head_proj_length.
      rewrite (nth_indep _ fzero (fneg finfo_max)) by (rewrite repeat_length; lia).
      rewrite nth_repeat. reflexivity. }
    rewrite E. repeat split. discriminate.
  - intros Hfin. unfold sim, masked_similarity.
    apply masked_fill_Forall; [exact I | exact Hfin].
Qed.

(** *** AttentionLearnedScaling as constructed *)

Lemma learned_init_scale_0 (dim : nat) (b : AttentionBase xfloat) (n hh : nat) :
  (1 <= n)%nat -> (hh < heads b)%nat ->
  nth 0 (nth hh (create_scaling (AttentionLearnedScaling_init dim b) (arange n)) []) fzero
  = XNaN.
Proof.
  intros Hn Hh. unfold create_scaling. simpl ls_alphas. simpl ls_betas.
  rewrite (nth_map2_lt _ (repeat (XFin 0) (heads b)) (repeat (XFin 0) (heads b))
             (XFin 0) (XFin 0) [])
    by (rewrite repeat_length; exact Hh).
  rewrite !nth_repeat.
  destruct n as [|n]; [lia|].
  change (xdiv (XFin 1)
            (xmul (xadd (xadd (XFin 1) (xmul (XFin 0) (xlog (XFin 0)))) (XFin 0))
                  (XFin (sqrt (INR dim / INR (heads b))))) = XNaN).
  rewrite xlog_zero. unfold xmul at 2. rewrite Reqb_true. reflexivity.
Qed.

Lemma learned_init_unguarded (dim : nat) (b : AttentionBase xfloat) (x : mat xfloat) :
  well_shaped dim b x -> (1 <= length x)%nat ->
  unguarded_at_0 d (LearnedScaling (AttentionLearnedScaling_init dim b)) b
    (create_scaling (AttentionLearnedScaling_init dim b) (arange (length x))) x.
Proof.
  intros Hw Hn. split; [reflexivity|].
  apply (@scaled_query_row0 dim _ _ x Hw Hn). intros hh Hhh.
  set (scales := create_scaling (AttentionLearnedScaling_init dim b) (arange (length x))).
  assert (Hrow : forall h', (h' < heads b)%nat ->
            length (nth h' scales []) = length x
            /\ ~ is_finite (nth 0 (nth h' scales []) fzero)).
  { intros h' Hh'. split.
    - unfold scales, create_scaling. simpl ls_alphas. simpl ls_betas.
      rewrite (nth_map2_lt _ (repeat (XFin 0) (heads b)) (repeat (XFin 0) (heads b))
                 (XFin 0) (XFin 0) [])
        by (rewrite repeat_length; exact Hh').
      unfold arange. now rewrite !length_map, length_seq.
    - unfold scales. rewrite learned_init_scale_0 by assumption. simpl. tauto. }
  cbv zeta. destruct (length scales =? 1)%nat; apply Hrow; lia.
Qed.

(** The first row has one unmasked logit: if it is a number its weight
    is 1, whatever the backend. *)
Lemma first_row_fin (r : R) (rest : list xfloat) :
  causal_softmax 0 (XFin r :: rest) = XFin 1 :: repeat (XFin 0) (length rest).
Proof.
  unfold causal_softmax. cbv zeta.
  change (firstn 1 (XFin r :: rest)) with [XFin r].
  change (forallb regular [XFin r]) with (regular (XFin r) && true)%bool.
  rewrite regular_fin. cbn.
  replace (r + - r) with 0 by lra. rewrite dt_exp_0. rewrite Reqb_false by lra.
  rewrite Nat.sub_0_r. do 2 f_equal. field.
Qed.


(** C5 fails in the code.  As constructed (alphas = betas = 0) the scale
    of AttentionLearnedScaling at position 0 is 0 * log(0) = NaN, not
    1/sqrt(head_dim): on every input the queries of position 0 reach
    sdpa as NaN in every component of every head.  At dim = heads = 1,
    every weight 1, the output bias 0 and the one-token input [[1]], the
    scaled query is [[NaN]]; AttentionBase returns [[1]], while with
    the fused CPU kernel, which gives a row of NaN logits the weight 0,
    AttentionLearnedScaling returns [[0]]. *)
Theorem learned_scaling_init_differs_from_base :
  let b := base_1 1 1 1 1 in
  let x := [[XFin 1]] in
  let m := AttentionLearnedScaling_init 1 b in
  nth 0 (nth 0 (create_scaling m (arange 1)) []) fzero = XNaN /\
  (forall dim b' x',
     well_shaped dim b' x' -> (1 <= length x')%nat ->
     unguarded_at_0 d (LearnedScaling (AttentionLearnedScaling_init dim b')) b'
       (create_scaling (AttentionLearnedScaling_init dim b') (arange (length x'))) x') /\
  nth 0 (scale_queries (project_q b x) (create_scaling m (arange 1))) [] = [[XNaN]] /\
  forward1 (backend := fused_backend d) (LearnedScaling m) x = Some [[XFin 0]] /\
  forward1 (Base b) x = Some [[XFin 1]].
Proof.
  intros b x m. split; [|split; [|split; [|split]]].
  - apply learned_init_scale_0; simpl; lia.
  - intros dim b' x' Hw Hn. now apply learned_init_unguarded.
  - xeval. reflexivity.
  - xeval. repeat f_equal. lra.
  - xeval. try rewrite first_row_fin. xeval. repeat f_equal. lra.
Qed.

(** *** The scales away from position 0, with special values *)

Lemma xdiv_fin (r r' : R) : r' <> 0 -> xdiv (XFin r) (XFin r') = XFin (r / r').
Proof. intros H. unfold xdiv. now rewrite Reqb_false. Qed.

Lemma xsqrt_nonneg (r : R) : 0 <= r -> xsqrt (XFin r) = XFin (sqrt r).
Proof. intros H. unfold xsqrt. now rewrite Rltb_false. Qed.


Lemma xlog_position (p : nat) : (1 <= p)%nat -> xlog (XFin (INR p)) = XFin (ln (INR p)).
Proof. intros Hp. apply xlog_pos. apply lt_0_INR. lia. Qed.

Lemma ln_base_pos (base : R) : 1 < base -> 0 < ln base.
Proof. intros Hb. rewrite <- ln_1. apply ln_increasing; lra. Qed.

Lemma scale_entry (f : xfloat -> xfloat) (n p : nat) :
  (p < n)%nat -> nth p (map f (arange n)) fzero = f (XFin (INR p)).
Proof.
  intros Hp. unfold arange. rewrite map_map.
  rewrite (nth_map_lt _ (seq 0 n) 0%nat fzero) by (rewrite length_seq; exact Hp).
  now rewrite seq_nth by exact Hp.
Qed.

(** X13.  From position 1 on, the three logarithmic scales are finite numbers
    (for a positive head dimension, a base length above 1 and a
    non-negative bias): the non-finite values are confined to position 0. *)
Theorem scales_finite_from_position_1 (n p : nat) (head_dim base bias_h : R)
    (attn_bias : list xfloat) (hh : nat) :
  0 < head_dim -> 1 < base -> (1 <= p)%nat -> (p < n)%nat ->
  (hh < length attn_bias)%nat -> nth hh attn_bias fzero = XFin bias_h -> 0 <= bias_h ->
  nth p (nth 0 (yarn_scaling (arange n) head_dim) []) fzero
  = XFin ((0.1 * ln (INR p) + 1) * ((0.1 * ln (INR p) + 1) * 1) / sqrt head_dim) /\
  nth p (nth 0 (relative_scaling (arange n) head_dim base) []) fzero
  = XFin (sqrt (ln (INR p) / ln base / head_dim)) /\
  nth p (nth hh (relative_scaling_2 (arange n) head_dim attn_bias base) []) fzero
  = XFin (sqrt (ln (INR p) / ln base * bias_h / head_dim)).
Proof.
  intros Hh Hb Hp Hn Hhh Hbias Hb0.
  pose proof (ln_base_pos Hb) as Hlb.
  assert (Hlp : 0 <= ln (INR p)).
  { rewrite <- ln_1. destruct (Nat.eq_dec p 1) as [->|Hne]; [simpl; lra|].
    left. apply ln_increasing; [lra|]. change 1 with (INR 1). apply lt_INR. lia. }
  assert (Hq : 0 <= ln (INR p) / ln base).
  { unfold Rdiv. apply Rmult_le_pos; [exact Hlp | left; now apply Rinv_0_lt_compat]. }
  assert (Hi : 0 < / head_dim) by now apply Rinv_0_lt_compat.
  repeat split.
  - unfold yarn_scaling. simpl nth. rewrite scale_entry by exact Hn.
    change (xdiv (xmul (xadd (xmul (XFin 0.1) (xlog (XFin (INR p)))) (XFin 1))
                       (xmul (xadd (xmul (XFin 0.1) (xlog (XFin (INR p)))) (XFin 1))
                             (XFin 1)))
                 (XFin (sqrt head_dim)) = XFin
              ((0.1 * ln (INR p) + 1) * ((0.1 * ln (INR p) + 1) * 1) / sqrt head_dim)).
    rewrite xlog_position by exact Hp. simpl xmul. simpl xadd. simpl xmul.
    apply xdiv_fin. pose proof (sqrt_lt_R0 head_dim Hh). lra.
  - unfold relative_scaling, log_base. simpl nth. rewrite map_map.
    rewrite scale_entry by exact Hn.
    change (xsqrt (xdiv (xdiv (xlog (XFin (INR p))) (xlog (XFin base))) (XFin head_dim))
            = XFin (sqrt (ln (INR p) / ln base / head_dim))).
    rewrite xlog_position by exact Hp. rewrite xlog_pos by lra.
    rewrite !xdiv_fin by lra. apply xsqrt_nonneg.
    unfold Rdiv at 1. apply Rmult_le_pos; lra.
  - unfold relative_scaling_2, log_base.
    rewrite (nth_map_lt _ attn_bias fzero [] Hhh). rewrite Hbias, map_map.
    rewrite scale_entry by exact Hn.
    change (xsqrt (xdiv (xmul (xdiv (xlog (XFin (INR p))) (xlog (XFin base)))
                              (XFin bias_h)) (XFin head_dim))
            = XFin (sqrt (ln (INR p) / ln base * bias_h / head_dim))).
    rewrite xlog_position by exact Hp. rewrite xlog_pos by lra.
    rewrite xdiv_fin by lra. simpl xmul. rewrite xdiv_fin by lra.
    apply xsqrt_nonneg. unfold Rdiv at 1. apply Rmult_le_pos; [|lra].
    apply Rmult_le_pos; assumption.
Qed.


(** X15.  With a non-zero alpha the learned scale at position 0 is exactly 0:
    alpha * log(0) is an infinity and its reciprocal is 0. *)
Theorem learned_scale_zero_at_position_0 (m : AttentionLearnedScaling xfloat)
    (n hh : nat) (alpha beta : R) :
  (1 <= n)%nat -> 0 < ls_base_scale m ->
  (hh < length (ls_alphas m))%nat -> (hh < length (ls_betas m))%nat ->
  nth hh (ls_alphas m) fzero = XFin alpha -> nth hh (ls_betas m) fzero = XFin beta ->
  alpha <> 0 ->
  nth 0 (nth hh (create_scaling m (arange n)) []) fzero = XFin 0.
Proof.
  intros Hn Hs Ha Hb Ealpha Ebeta Hne. unfold create_scaling.
  rewrite (nth_map2_lt _ (ls_alphas m) (ls_betas m) fzero fzero []) by assumption.
  rewrite Ealpha, Ebeta, map_map. rewrite scale_entry by lia.
  change (xdiv (XFin 1)
            (xmul (xadd (xadd (XFin 1) (xmul (XFin alpha) (xlog (XFin (INR 0)))))
                        (XFin beta))
                  (XFin (ls_base_scale m))) = XFin 0).
  simpl INR. rewrite xlog_zero. unfold xmul at 2. rewrite Reqb_false by exact Hne.
  simpl xadd. unfold xmul. rewrite Reqb_false by lra. reflexivity.
Qed.

(** *** A NaN at any position poisons that row *)

Lemma output_row_nan_at (dim : nat) (l : Linear xfloat) (merged : mat xfloat) (i : nat) :
  (1 <= dim)%nat -> linear_shape dim l ->
  (exists bo, bias l = Some bo /\ length bo = dim) ->
  (i < length merged)%nat -> nth i merged [] = repeat XNaN dim ->
  nth i (linear l merged) [] = repeat XNaN dim.
Proof.
  intros Hd [Hw Hrows] [bo [Hb Hbo]] Hm Hrow. unfold linear.
  rewrite (nth_map_lt _ merged [] [] Hm). rewrite Hb, Hrow.
  rewrite map_const_repeat with (c := XNaN).
  - rewrite Hw. apply add_bias_nan. exact Hbo.
  - intros w Hin. rewrite Forall_forall in Hrows. specialize (Hrows w Hin).
    apply dot_nan.
    + apply Forall_forall. intros e He. now apply repeat_spec in He.
    + destruct dim; [lia | discriminate].
    + destruct w; [simpl in Hrows; lia | discriminate].
Qed.

(** Once every head's row i is NaN, so is row i of the module's output. *)
Lemma nan_heads_finish (dim dh n i : nat) (b : AttentionBase xfloat) (P : nat -> mat xfloat) :
  (1 <= heads b)%nat -> (1 <= dh)%nat -> dim = (heads b * dh)%nat ->
  linear_shape dim (to_out b) ->
  (exists bo, bias (to_out b) = Some bo /\ length bo = dim) ->
  (i < n)%nat -> length (P 0%nat) = n ->
  (forall hh, (hh < heads b)%nat -> nth i (P hh) [] = repeat XNaN dh) ->
  nth i (finish b (map P (seq 0 (heads b)))) [] = repeat XNaN dim.
Proof.
  intros Hh Hdh Hdim Ho Hob Hi Hlen Hrow. unfold finish.
  assert (Hfirst : nth 0 (map P (seq 0 (heads b))) [] = P 0%nat).
  { rewrite (nth_map_lt _ (seq 0 (heads b)) 0%nat []) by (rewrite length_seq; lia).
    now rewrite seq_nth by lia. }
  apply output_row_nan_at; try assumption.
  - nia.
  - unfold merge_heads. rewrite length_map, length_seq, Hfirst, Hlen. exact Hi.
  - unfold merge_heads. rewrite Hfirst, Hlen.
    rewrite (nth_map_lt _ (seq 0 n) 0%nat []) by (rewrite length_seq; lia).
    rewrite seq_nth by lia. simpl Nat.add. rewrite map_map.
    rewrite (map_ext_in _ (fun _ => repeat XNaN dh)).
    + rewrite concat_repeat, length_seq. now rewrite Hdim.
    + intros hh Hin. apply in_seq in Hin. apply Hrow. lia.
Qed.

Lemma well_shaped_head_dim (dim : nat) (b : AttentionBase xfloat) (x : mat xfloat) :
  well_shaped dim b x -> (1 <= length x)%nat -> 0 < INR (ncols x) / INR (heads b).
Proof.
  intros (Hh & (dh & Hdh & Hdim) & _ & _ & _ & _ & Hx) Hn.
  assert (Hc : ncols x = dim).
  { unfold ncols. rewrite Forall_forall in Hx. apply Hx. apply nth_In. lia. }
  rewrite Hc. unfold Rdiv. apply Rmult_lt_0_compat.
  - apply lt_0_INR. nia.
  - apply Rinv_0_lt_compat. apply lt_0_INR. lia.
Qed.

Lemma nth_repeat_at {A : Type} (a dflt : A) (n i : nat) :
  (i < n)%nat -> nth i (repeat a n) dflt = a.
Proof.
  intros Hi. rewrite (nth_indep _ dflt a) by (now rewrite repeat_length). apply nth_repeat.
Qed.



(** *** AttentionSoftmaxPlusFN as constructed *)

Lemma softmax_plus_row_nan (row w : list xfloat) :
  softmax_plus_row XNaN row = Some w -> w = repeat XNaN (length row).
Proof.
  unfold softmax_plus_row. destruct (row_max row) as [m|]; [|discriminate].
  cbv zeta. intros E. injection E as <-. change fadd with xadd. rewrite xadd_nan_r.
  rewrite map_const_repeat with (c := XNaN) by (intros a _; apply xdiv_nan_r).
  now rewrite length_map.
Qed.

(** X16.  As constructed (alphas = betas = 0) AttentionSoftmaxPlusFN adds
    exp(0 * log 0 + 0) = NaN to the denominator of position 0: on every
    input with at least one position it returns, and every component of
    its output at position 0 is NaN. *)
Theorem plus_fn_init_poisons (dim : nat) (b : AttentionBase xfloat) (x : mat xfloat) :
  well_shaped dim b x -> (1 <= length x)%nat ->
  exists out,
    forward1 (SoftmaxPlusFN (AttentionSoftmaxPlusFN_init b)) x = Some out
    /\ nth 0 out [] = repeat XNaN dim.
Proof.
  intros Hw Hn.
  destruct Hw as (Hh & (dh & Hdh & Hdim) & (Hq & Hqb) & (Hk & Hkb) & (Hv & Hvb)
                  & (Ho & Hob) & Hx).
  simpl forward1.
  rewrite (proj2 (proj2 (manual_forward_heads b x)) (AttentionSoftmaxPlusFN_init b) eq_refl).
  destruct (@manual_heads_return _ _ b
              (fun hh => softmax_plus_fn_attn
                           (nth hh (pf_alphas (AttentionSoftmaxPlusFN_init b)) fzero)
                           (nth hh (pf_betas (AttentionSoftmaxPlusFN_init b)) fzero)
                           (arange (length x))) x Hn)
    as (G & HG & E).
  { intros hh sim. apply plus_fn_attn_some. }
  rewrite E. eexists. split; [reflexivity|].
  apply (@nan_heads_finish dim dh (length x) 0 b); try assumption.
  - unfold apply_attention. rewrite length_map. apply HG.
  - intros hh Hhh. destruct (HG hh) as [EG LG].
    set (sim := masked_similarity (length x) (head_proj (to_q b) (heads b) hh x)
                                  (head_proj (to_k b) (heads b) hh x)) in *.
    assert (Hsim : length sim = length x).
    { apply masked_similarity_length. apply head_proj_length. }
    assert (Hrow0 : length (nth 0 sim []) = length x).
    { unfold sim. rewrite <- (head_proj_length (to_k b) (heads b) hh x) at 1.
      rewrite masked_similarity_row by (rewrite head_proj_length; lia).
      rewrite length_app, length_map, length_firstn, repeat_length, head_proj_length. lia. }
    pose proof (@plus_fn_attn_row _ _ _ _ _ sim (G hh) 0 EG ltac:(lia)) as Er.
    simpl pf_alphas in Er. simpl pf_betas in Er. rewrite nth_repeat in Er.
    rewrite arange_0 in Er by exact Hn.
    change (fexp (fadd (fmul fzero (flog (XFin 0))) fzero))
      with (xexp d (xadd (xmul (XFin 0) (xlog (XFin 0))) (XFin 0))) in Er.
    rewrite xlog_zero in Er. unfold xmul in Er. rewrite Reqb_true in Er.
    rewrite xadd_nan_l in Er. change (xexp d XNaN) with XNaN in Er.
    apply softmax_plus_row_nan in Er.
    unfold apply_attention.
    rewrite (nth_map_lt _ (G hh) [] []) by lia.
    rewrite Er, Hrow0.
    rewrite row_matmul_nan by (rewrite ?head_proj_length; lia).
    unfold ncols.
    now rewrite (@head_proj_row_length _ _ dim dh (to_v b) (heads b) hh x 0) by (assumption || lia).
Qed.

(** X17.  From position 1 on the added term is exp(0 * log i + 0) = exp(0), the
    term of AttentionSoftmaxPlusOne as constructed: on an input with at
    least one position both modules return, with the same row at every
    position except position 0. *)
Theorem plus_fn_init_matches_plus_one (b : AttentionBase xfloat) (x : mat xfloat) (i : nat) :
  (1 <= i)%nat -> (1 <= length x)%nat ->
  exists out out',
    forward1 (SoftmaxPlusFN (AttentionSoftmaxPlusFN_init b)) x = Some out
    /\ forward1 (SoftmaxPlusOne (AttentionSoftmaxPlusOne_init b)) x = Some out'
    /\ nth i out [] = nth i out' [].
Proof.
  intros Hi Hn. simpl forward1.
  destruct (manual_forward_heads b x) as (_ & Hone & Hfn).
  rewrite (Hfn (AttentionSoftmaxPlusFN_init b) eq_refl).
  rewrite (Hone (AttentionSoftmaxPlusOne_init b) eq_refl).
  destruct (@manual_heads_return _ _ b
              (fun hh => softmax_plus_fn_attn
                           (nth hh (pf_alphas (AttentionSoftmaxPlusFN_init b)) fzero)
                           (nth hh (pf_betas (AttentionSoftmaxPlusFN_init b)) fzero)
                           (arange (length x))) x Hn)
    as (G & HG & E).
  { intros hh sim. apply plus_fn_attn_some. }
  destruct (@manual_heads_return _ _ b
              (fun hh => softmax_plus_one_attn
                           (nth hh (p1_denom_bias (AttentionSoftmaxPlusOne_init b)) fzero))
              x Hn)
    as (G' & HG' & E').
  { intros hh sim. apply plus_one_attn_some. }
  rewrite E, E'. eexists. eexists. split; [reflexivity|]. split; [reflexivity|].
  apply finish_row_ext. intros hh Hhh.
  destruct (HG hh) as [EG LG]. destruct (HG' hh) as [EG' LG'].
  set (sim := masked_similarity (length x) (head_proj (to_q b) (heads b) hh x)
                                (head_proj (to_k b) (heads b) hh x)) in *.
  assert (Hsim : length sim = length x).
  { apply masked_similarity_length. apply head_proj_length. }
  unfold apply_attention. split; [now rewrite !length_map, LG, LG'|].
  destruct (Nat.lt_ge_cases i (length x)) as [Hlt|Hge].
  - rewrite (nth_map_lt _ (G hh) [] []) by lia.
    rewrite (nth_map_lt _ (G' hh) [] []) by lia.
    f_equal.
    pose proof (@plus_fn_attn_row _ _ _ _ _ sim (G hh) i EG ltac:(lia)) as Er.
    pose proof (@plus_one_attn_row _ _ _ sim (G' hh) i EG' ltac:(lia)) as Er'.
    simpl pf_alphas in Er. simpl pf_betas in Er. simpl p1_denom_bias in Er'.
    rewrite !nth_repeat in Er. rewrite nth_repeat in Er'.
    unfold arange in Er.
    rewrite (nth_map_lt _ (seq 0 (length x)) 0%nat fzero) in Er
      by (rewrite length_seq; exact Hlt).
    rewrite seq_nth in Er by exact Hlt. simpl Nat.add in Er.
    change (fexp (fadd (fmul fzero (flog (of_real (INR i)))) fzero))
      with (xexp d (xadd (xmul (XFin 0) (xlog (XFin (INR i)))) (XFin 0))) in Er.
    rewrite xlog_position in Er by exact Hi. simpl xmul in Er. simpl xadd in Er.
    replace (0 * ln (INR i) + 0) with 0 in Er by ring.
    change (fexp fzero) with (xexp d (XFin 0)) in Er'.
    rewrite Er in Er'. now injection Er'.
  - rewrite !nth_overflow; [reflexivity | |]; rewrite length_map; lia.
Qed.

(** *** A unit bias *)

Lemma xmul_one_r (a : xfloat) : xmul a (XFin 1) = a.
Proof.
  destruct a as [|s|r]; [reflexivity | |].
  - unfold xmul. rewrite Reqb_false by lra. rewrite Rltb_false by lra.
    now rewrite xorb_false_r.
  - unfold xmul. now rewrite Rmult_1_r.
Qed.

(** X18.  With attn_bias = 1 AttentionRelativeScaling2 is
    AttentionRelativeScaling1: the two return the same output on every
    input, non-finite entries included. *)
Theorem unit_bias_is_relative_scaling_1 (b : AttentionBase xfloat) (base : R)
    (learned_bias : bool) (x : mat xfloat) :
  forward1 (RelativeScaling2 (AttentionRelativeScaling2_init b base 1 learned_bias)) x
  = forward1 (RelativeScaling1 {| rs1_base := b; rs1_base_seq_len := base |}) x.
Proof.
  simpl forward1.
  unfold AttentionRelativeScaling2_forward1, AttentionRelativeScaling1_forward1. cbv zeta.
  assert (Hbias : tensor_of (rs2_attn_bias
                               (AttentionRelativeScaling2_init b base 1 learned_bias))
                  = repeat (XFin 1) (heads b)).
  { unfold AttentionRelativeScaling2_init. now destruct learned_bias. }
  rewrite Hbias. simpl rs2_base. simpl rs2_base_seq_len. simpl rs1_base.
  simpl rs1_base_seq_len.
  rewrite !prescaled_heads. apply (f_equal (fun o => Some (finish b o))).
  apply map_ext_in. intros hh Hin.
  apply in_seq in Hin. f_equal. f_equal.
  set (hd := INR (ncols x) / INR (heads b)).
  change (length (relative_scaling (arange (length x)) hd base) =? 1)%nat with true.
  cbv iota. unfold relative_scaling. simpl nth.
  set (idx := if (length (relative_scaling_2 (arange (length x)) hd
                            (repeat (XFin 1) (heads b)) base) =? 1)%nat
              then 0%nat else hh).
  assert (Hidx : (idx < heads b)%nat) by (unfold idx; destruct (_ =? _)%nat; lia).
  unfold relative_scaling_2.
  rewrite (nth_map_lt _ (repeat (XFin 1) (heads b)) fzero [])
    by (rewrite repeat_length; exact Hidx).
  rewrite nth_repeat_at by exact Hidx.
  apply map_ext. intros lb. change (fmul lb (XFin 1)) with (xmul lb (XFin 1)).
  now rewrite xmul_one_r.
Qed.

(** *** Beyond exact arithmetic *)

(** A value that has overflowed to +inf at a later position reaches an
    earlier row although its weight there is exactly zero: 0 * inf is
    NaN.  AttentionBase with dim = heads = 1, weights 1 and value weight
    2, returns 2 at position 0 on [[1], [1]] and NaN at position 0 on
    [[1], [+inf]]. *)
Lemma infinite_value_reaches_earlier_row :
  let b := base_1 1 1 2 1 in
  exists out out',
    forward1 (Base b) [[XFin 1]; [XFin 1]] = Some out
    /\ forward1 (Base b) [[XFin 1]; [XInf false]] = Some out'
    /\ nth 0 out [] = [XFin 2] /\ nth 0 out' [] = [XNaN].
Proof.
  intros b. eexists. eexists. split; [reflexivity|]. split; [reflexivity|].
  split.
  - xeval. rewrite first_row_fin. xeval. f_equal. f_equal. lra.
  - xeval. rewrite first_row_fin. xeval. reflexivity.
Qed.

End WithDtype.


Lemma scales_finite_from_position_1_witness :
  nth 1 (nth 0 (yarn_scaling (ops := IEEE.scalar real_dtype)
                  (arange (ops := IEEE.scalar real_dtype) 2) 4) []) (XFin 0)
  = XFin ((0.1 * ln (INR 1) + 1) * ((0.1 * ln (INR 1) + 1) * 1) / sqrt 4).
Proof.
  refine (proj1 (@scales_finite_from_position_1 real_dtype 2 1 4 2048 1.5 [XFin 1.5] 0
                   _ _ _ _ _ _ _)); try lra; try (simpl; lia); reflexivity.
Defined.


Lemma learned_scale_zero_at_position_0_witness :
  nth 0 (nth 0 (create_scaling (ops := IEEE.scalar real_dtype)
                  {| ls_base := base_1 (ops := IEEE.scalar real_dtype) 1 1 1 1;
                     ls_alphas := [XFin 1];
                     ls_betas := [XFin 0];
                     ls_head_dim := 4;
                     ls_base_scale := 2 |}
                  (arange (ops := IEEE.scalar real_dtype) 1)) []) (XFin 0)
  = XFin 0.
Proof.
  apply (@learned_scale_zero_at_position_0 real_dtype
           {| ls_base := base_1 (ops := IEEE.scalar real_dtype) 1 1 1 1;
              ls_alphas := [XFin 1];
              ls_betas := [XFin 0];
              ls_head_dim := 4;
              ls_base_scale := 2 |} 1 0 1 0);
    try (simpl; lia); try (simpl; lra); reflexivity.
Defined.

Lemma plus_fn_init_poisons_witness :
  exists out,
    forward1 (ops := IEEE.scalar real_dtype) (backend := fused_backend real_dtype)
      (SoftmaxPlusFN
         (AttentionSoftmaxPlusFN_init (ops := IEEE.scalar real_dtype)
            (base_1 (ops := IEEE.scalar real_dtype) 1 1 1 1)))
      [[XFin 1]; [XFin 2]] = Some out
    /\ nth 0 out [] = repeat XNaN 1.
Proof.
  apply (@plus_fn_init_poisons real_dtype (fused_backend real_dtype) 1
           (base_1 (ops := IEEE.scalar real_dtype) 1 1 1 1) [[XFin 1]; [XFin 2]]).
  - apply well_shaped_base_1. repeat constructor.
  - simpl. lia.
Defined.

Lemma plus_fn_init_matches_plus_one_witness :
  exists out out',
    forward1 (ops := IEEE.scalar real_dtype) (backend := fused_backend real_dtype)
      (SoftmaxPlusFN
         (AttentionSoftmaxPlusFN_init (ops := IEEE.scalar real_dtype)
            (base_1 (ops := IEEE.scalar real_dtype) 1 1 1 1)))
      [[XFin 1]; [XFin 2]] = Some out
    /\ forward1 (ops := IEEE.scalar real_dtype) (backend := fused_backend real_dtype)
         (SoftmaxPlusOne
            (AttentionSoftmaxPlusOne_init (ops := IEEE.scalar real_dtype)
               (base_1 (ops := IEEE.scalar real_dtype) 1 1 1 1)))
         [[XFin 1]; [XFin 2]] = Some out'
    /\ nth 1 out [] = nth 1 out' [].
Proof.
  apply (@plus_fn_init_matches_plus_one real_dtype (fused_backend real_dtype)
           (base_1 (ops := IEEE.scalar real_dtype) 1 1 1 1) [[XFin 1]; [XFin 2]] 1).
  - lia.
  - simpl. lia.
Defined.

End IEEETheory.
